(** * pmxbot [!stack]: the index language and the stack operations

    A shallow embedding of [pmxbot/stack.py]: the index parser
    [parse_index], the command function [stack] with its four operations,
    and the part of the Python runtime they rest on; with it the lookup
    and deletion of quotes of [pmxbot/quotesplus.py].

    Modelling conventions.
    - A Python [str] is a [string]; the model covers ASCII text (Python's
      [strip], [lower] and [int] also know non-ASCII white space, letters
      and digits, which a [string] of 8-bit characters does not have).
    - A Python [int] is a [Z]; a list of items is a [list string].
    - An exception is a value [Raise e] of the type [result].
    - The topic store is a finite map from topic to item list.
    - [re.search] and [random.shuffle] are library calls whose outcome the
      development takes as parameters.
    - The module's [debug] flag is [False]; the [print] it guards is left
      out.
    - [int] refuses a literal of more than 4300 digits, the default of
      [sys.int_max_str_digits]; [list.insert] converts its position to a
      [Py_ssize_t] of 64 bits and raises [OverflowError] outside it. A
      list of Python holds at most [ssize_t_max] items; where a statement
      needs that, it says so.
    - The collection of [MongoDBQuotes] is the list of its documents;
      [random.randrange] is a parameter like [random.shuffle].
    - Memory and time are not bounded: what Python raises when it runs
      out of memory is out of the model's reach, and the operations of
      the store do not raise. *)

From Stdlib Require Import ZArith Ascii String List Lia Bool.
From stdpp Require Import base tactics option list numbers sorting gmap strings pretty.

Local Open Scope Z_scope.

(** ** Exceptions *)

Inductive exn : Type :=
| ValueError
| IndexError
| OverflowError
| ReError.

Inductive result (A : Type) : Type :=
| Ok (a : A)
| Raise (e : exn).

Arguments Ok {A} a.
Arguments Raise {A} e.

#[global] Instance result_ret : MRet result := fun A a => Ok a.
#[global] Instance result_bind : MBind result := fun A B k m =>
  match m with
  | Ok a => k a
  | Raise e => Raise e
  end.
#[global] Instance result_fmap : FMap result := fun A B f m =>
  match m with
  | Ok a => Ok (f a)
  | Raise e => Raise e
  end.

(** ** Python [str] methods *)

Module Str.

(** The double quote character. *)
Definition dquote : ascii := "034"%char.
(** The single quote character. *)
Definition squote : ascii := "'"%char.
(** The line feed character. *)
Definition newline : ascii := "010"%char.

(** [c.isspace()] on the ASCII range: tab, line feed, vertical tab, form
    feed, carriage return, the four separators 28..31 and the blank. *)
Definition isspace (c : ascii) : bool :=
  let n := nat_of_ascii c in
  ((9 <=? n) && (n <=? 13) || (28 <=? n) && (n <=? 32))%nat.

Fixpoint lstrip (s : string) : string :=
  match s with
  | String c s' => if isspace c then lstrip s' else s
  | EmptyString => EmptyString
  end.

Fixpoint rstrip (s : string) : string :=
  match s with
  | String c s' =>
      match rstrip s' with
      | EmptyString => if isspace c then EmptyString else String c EmptyString
      | r => String c r
      end
  | EmptyString => EmptyString
  end.

(** [s.strip()] *)
Definition strip (s : string) : string := rstrip (lstrip s).

Definition lower_char (c : ascii) : ascii :=
  let n := nat_of_ascii c in
  if ((65 <=? n) && (n <=? 90))%nat then ascii_of_nat (n + 32) else c.

(** [s.lower()] *)
Fixpoint lower (s : string) : string :=
  match s with
  | String c s' => String (lower_char c) (lower s')
  | EmptyString => EmptyString
  end.

(** [s.startswith(p)] *)
Definition startswith (s p : string) : bool := String.prefix p s.

(** [s.endswith(p)] *)
Fixpoint endswith (s p : string) : bool :=
  if String.eqb s p then true
  else match s with
       | String _ s' => endswith s' p
       | EmptyString => false
       end.

(** [sub in s] *)
Fixpoint contains (s sub : string) : bool :=
  String.prefix sub s ||
  match s with
  | String _ s' => contains s' sub
  | EmptyString => false
  end.

(** [s.find(c)] for a one-character [c]: the first position, or -1. *)
Fixpoint find (s : string) (c : ascii) : Z :=
  match s with
  | String a s' =>
      if Ascii.eqb a c then 0
      else let r := find s' c in if r =? -1 then -1 else r + 1
  | EmptyString => -1
  end.

(** [s.rfind(c)] for a one-character [c]: the last position, or -1. *)
Fixpoint rfind (s : string) (c : ascii) : Z :=
  match s with
  | String a s' =>
      let r := rfind s' c in
      if r =? -1 then (if Ascii.eqb a c then 0 else -1) else r + 1
  | EmptyString => -1
  end.

Fixpoint take_chars (n : nat) (s : string) : string :=
  match n, s with
  | S n', String c s' => String c (take_chars n' s')
  | _, _ => EmptyString
  end.

Fixpoint drop_chars (n : nat) (s : string) : string :=
  match n, s with
  | S n', String _ s' => drop_chars n' s'
  | _, _ => s
  end.

Definition len (s : string) : Z := Z.of_nat (String.length s).

(** How a slice bound is adjusted: a negative bound counts from the end,
    and the outcome is clipped to [0 .. n]. *)
Definition adjust (n i : Z) : Z :=
  let i := if i <? 0 then i + n else i in
  if i <? 0 then 0 else if n <? i then n else i.

(** [s[lo:hi]] *)
Definition slice (s : string) (lo hi : Z) : string :=
  let lo := adjust (len s) lo in
  let hi := adjust (len s) hi in
  take_chars (Z.to_nat (hi - lo)) (drop_chars (Z.to_nat lo) s).

(** [s[:hi]] *)
Definition slice_to (s : string) (hi : Z) : string := slice s 0 hi.

(** [s[lo:]] *)
Definition slice_from (s : string) (lo : Z) : string := slice s lo (len s).

(** [s.split(sep)] for a one-character [sep]. *)
Fixpoint split (s : string) (sep : ascii) : list string :=
  match s with
  | String c s' =>
      if Ascii.eqb c sep then EmptyString :: split s' sep
      else match split s' sep with
           | h :: t => String c h :: t
           | [] => [String c EmptyString]
           end
  | EmptyString => [EmptyString]
  end.

(** [s.split(sep, 1)] for a one-character [sep]: at most one cut, at the
    first [sep]. *)
Fixpoint split1 (s : string) (sep : ascii) : list string :=
  match s with
  | String c s' =>
      if Ascii.eqb c sep then [EmptyString; s']
      else match split1 s' sep with
           | h :: t => String c h :: t
           | [] => [String c EmptyString]
           end
  | EmptyString => [EmptyString]
  end.

(** [sep.join(l)] *)
Definition join (sep : string) (l : list string) : string := String.concat sep l.

End Str.

(** ** Python [int(s)] *)

Module Int.

Definition digit (c : ascii) : option Z :=
  let n := nat_of_ascii c in
  if ((48 <=? n) && (n <=? 57))%nat then Some (Z.of_nat n - 48) else None.

(** The digits of a literal, with single underscores allowed between
    digits; [after_digit] tells whether the previous character was one. *)
Fixpoint digits (s : string) (acc : Z) (after_digit : bool) : option Z :=
  match s with
  | String c s' =>
      match digit c with
      | Some d => digits s' (10 * acc + d) true
      | None =>
          if Ascii.eqb c "_" && after_digit then digits s' acc false
          else None
      end
  | EmptyString => if after_digit then Some acc else None
  end.

(** The blanks [int] skips around a literal. *)
Definition blank (c : ascii) : bool :=
  let n := nat_of_ascii c in
  ((9 <=? n) && (n <=? 13) || (n =? 32))%nat.

Fixpoint skip_blanks (s : string) : string :=
  match s with
  | String c s' => if blank c then skip_blanks s' else s
  | EmptyString => EmptyString
  end.

Fixpoint drop_trailing_blanks (s : string) : string :=
  match s with
  | String c s' =>
      match drop_trailing_blanks s' with
      | EmptyString => if blank c then EmptyString else String c EmptyString
      | r => String c r
      end
  | EmptyString => EmptyString
  end.

Definition signed_digits (s : string) : option Z :=
  match s with
  | String "+" r => digits r 0 false
  | String "-" r => Z.opp <$> digits r 0 false
  | _ => digits s 0 false
  end.

(** [sys.int_max_str_digits], as it is unless the host sets it: [int]
    refuses a literal with more digits. *)
Definition max_str_digits : Z := 4300.

(** The digits of a literal; the sign and the underscores do not count. *)
Fixpoint count_digits (s : string) : Z :=
  match s with
  | String c s' =>
      match digit c with
      | Some _ => 1 + count_digits s'
      | None => count_digits s'
      end
  | EmptyString => 0
  end.

(** [int(s)]: the value, or [ValueError]. *)
Definition int (s : string) : result Z :=
  let literal := drop_trailing_blanks (skip_blanks s) in
  match signed_digits literal with
  | Some z =>
      if max_str_digits <? count_digits literal then Raise ValueError
      else Ok z
  | None => Raise ValueError
  end.

End Int.

(** ** Python [list] methods and builtins *)

Module PyList.

(** The range of a C [Py_ssize_t], on a 64-bit host. *)
Definition ssize_t_min : Z := - 2 ^ 63.
Definition ssize_t_max : Z := 2 ^ 63 - 1.

Section methods.
Context {A : Type}.

(** [l.append(x)] *)
Definition append (l : list A) (x : A) : list A := l ++ [x].

(** [l.insert(i, x)]: the position is converted to a [Py_ssize_t], which
    raises [OverflowError] outside its range; then a negative [i] counts
    from the end, and the position is clipped to [0 .. len(l)]. *)
Definition insert (l : list A) (i : Z) (x : A) : result (list A) :=
  if (i <? ssize_t_min) || (ssize_t_max <? i) then Raise OverflowError
  else
    let n := Z.of_nat (length l) in
    let i := if i <? 0 then (if i + n <? 0 then 0 else i + n) else i in
    let i := if n <? i then n else i in
    Ok (take (Z.to_nat i) l ++ x :: drop (Z.to_nat i) l).

(** [l[i]]: a negative [i] counts from the end; [IndexError] outside. *)
Definition getitem (l : list A) (i : Z) : result A :=
  let n := Z.of_nat (length l) in
  let i := if i <? 0 then i + n else i in
  if (i <? 0) || (n <=? i) then Raise IndexError
  else match l !! Z.to_nat i with
       | Some x => Ok x
       | None => Raise IndexError
       end.

(** [l.pop(i)]: the item and the list without it. *)
Definition pop (l : list A) (i : Z) : result (A * list A) :=
  x ← getitem l i;
  let n := Z.of_nat (length l) in
  let i := if i <? 0 then i + n else i in
  Ok (x, delete (Z.to_nat i) l).
End methods.

(** [range(lo, hi)] *)
Definition range (lo hi : Z) : list Z := seqZ lo (hi - lo).

(** [sorted(set(l))] on integers *)
Definition sorted_set (l : list Z) : list Z := merge_sort Z.le (remove_dups l).

(** [reversed(l)] *)
Definition reversed {A : Type} (l : list A) : list A := reverse l.

(** [len(l)] *)
Definition len {A : Type} (l : list A) : Z := Z.of_nat (length l).

(** [a or b] on strings *)
Definition or_else (a b : string) : string :=
  if (a =? "")%string then b else a.

End PyList.

(** ** The topic store

    [Stack.store] offers [get_items] and [save_items]; the model is the
    document store of [MongoDBStack]: an unknown topic has no items, and a
    save replaces or creates the topic's record. *)

Module Storage.

Definition get_items (store : gmap string (list string)) (topic : string)
  : list string :=
  match store !! topic with
  | None => []
  | Some items => items
  end.

Definition save_items (store : gmap string (list string)) (topic : string)
  (items : list string) : gmap string (list string) :=
  <[topic := items]> store.

End Storage.

(** ** [pmxbot/stack.py] *)

Import Str PyList Storage.

(** What a call of the command function yields: the returned value
    ([None] where the function ends without a [return]), or an exception
    that leaves the function. *)
Inductive outcome : Type :=
| Returned (response : option string)
| Uncaught (e : exn).

(** The [help] table. *)
Module Help.

Definition stack : string :=
  "!stack <subcommand> <topic[index]> <item> | subcommand: show, add, pop, shuffle, help | index: [2, 4:-3 (inclusive), "
  +:+ String dquote ("foo" +:+ String dquote ", /ba.*r/]").
Definition help : string :=
  "!stack help <show, add, pop, shuffle, help, stack, index>: Show help for the given subcommand or feature (default: help)".
Definition add : string :=
  "!stack add <topic[index]> item: Add the given item to the given topic before the given (1-based) index (default: 1)".
Definition pop : string :=
  "!stack pop <topic[index]>: Pop any items from the given topic at the given (1-based) index(es) (default: 1)".
Definition show : string :=
  "!stack show <topic[index]> <multiline>: Show items from the given topic at the given (1-based) indexes (default: all)".
Definition shuffle : string :=
  "!stack shuffle <topic[index]>: Shuffle items from the given topic into the the given (1-based) index order (default: random)".
Definition index : string :=
  "!stack indexes must be integers `[2]`, start:end slices (inclusive) `[4:-3]`, `"
  +:+ String dquote ("text" +:+ String dquote
  "` or a `/regex/` to match, `first` or `last`, or any combination of those separated by commas.").

(** [help.get(key, default)] *)
Definition get (key default : string) : string :=
  if (key =? "stack")%string then stack
  else if (key =? "help")%string then help
  else if (key =? "add")%string then add
  else if (key =? "pop")%string then pop
  else if (key =? "show")%string then show
  else if (key =? "shuffle")%string then shuffle
  else if (key =? "index")%string then index
  else default.

End Help.

(** [enumerate(l, start)] *)
Fixpoint enumerate {A : Type} (l : list A) (start : Z) : list (Z * A) :=
  match l with
  | [] => []
  | x :: l' => (start, x) :: enumerate l' (start + 1)
  end.

(** The loop [for i, item in enumerate(items): if test(item):
    indices.append(i)], where the test may raise. *)
Fixpoint matching (test : string → result bool) (numbered : list (Z * string))
  : result (list Z) :=
  match numbered with
  | [] => Ok []
  | (i, item) :: numbered' =>
      b ← test item;
      found ← matching test numbered';
      Ok (if b : bool then i :: found else found)
  end.

(** [int(x) if x else default] *)
Definition int_or (x : string) (default : Z) : result Z :=
  if (x =? "")%string then Ok default else Int.int x.

(** A negative 1-based position counts from the bottom of the stack. *)
Definition from_bottom (n : Z) (items : list string) : Z :=
  if n <? 0 then n + (len items + 1) else n.

Section Stack.

(** [re.search(pattern, text)] as a truth value; [Raise ReError] when the
    pattern does not compile. *)
Variable re_search : string → string → result bool.

(** The order [random.shuffle] leaves the items in. *)
Variable random_shuffle : list string → list string.

(** The body of the loop of [parse_index] for one stripped, non-empty
    atom: the positions it contributes. *)
Definition parse_atom (items : list string) (atom : string) : result (list Z) :=
  if (startswith atom (String squote "") && endswith atom (String squote ""))
     || (startswith atom (String dquote "") && endswith atom (String dquote ""))
  then
    let atom := lower (slice atom 1 (-1)) in
    matching (fun item => Ok (contains (lower item) atom)) (enumerate items 0)
  else if startswith atom "/" && endswith atom "/" then
    let atom := slice atom 1 (-1) in
    matching (fun item => re_search atom item) (enumerate items 0)
  else if contains atom ":" then
    match strip <$> split1 atom ":" with
    | [start; end_] =>
        start ← int_or start 1;
        let start := from_bottom start items in
        end_ ← int_or end_ (len items);
        let end_ := from_bottom end_ items in
        let start := start - 1 in
        let end_ := end_ - 1 in
        Ok (range start (end_ + 1))
    | _ => Raise ValueError
    end
  else if (atom =? "first")%string then Ok [0]
  else if (atom =? "last")%string then Ok [len items - 1]
  else
    index ← Int.int atom;
    let index := from_bottom index items in
    let index := index - 1 in
    Ok [index].

(** The loop of [parse_index] over the atoms, with the indices so far. *)
Fixpoint parse_atoms (items : list string) (atoms : list string)
  (indices : list Z) : result (list Z) :=
  match atoms with
  | [] => Ok indices
  | atom :: atoms' =>
      let atom := strip atom in
      if (atom =? "")%string then parse_atoms items atoms' indices
      else
        found ← parse_atom items atom;
        parse_atoms items atoms' (indices ++ found)
  end.

Definition parse_index (index : option string) (items : list string)
  : result (list Z) :=
  match index with
  | None => Ok []
  | Some index => parse_atoms items (split index ",") []
  end.

(** Lines 265-273 of [stack]: the subcommand word and what follows it. *)
Definition split_subcommand (rest : string) : string * string :=
  let atoms :=
    strip <$> filter (fun atom => strip atom ≠ "") (split1 rest " ") in
  match atoms with
  | [] => ("show", "")
  | [subcommand] => (subcommand, "")
  | subcommand :: rest :: _ => (subcommand, rest)
  end.

(** Lines 275-286 of [stack]: topic, index expression and new item. The
    unpacking of the two parts of the split raises [ValueError] when
    there are not two. *)
Definition command_syntax (nick rest : string)
  : result (string * option string * string) :=
  let start := find rest "[" in
  let finish := rfind rest "]" in
  let sp := find rest " " in
  if negb (start =? -1) && negb (finish =? -1) && (start <? finish)
     && ((sp =? -1) || (start <? sp))
  then
    match strip <$> split1 (slice_to rest finish) "[" with
    | [topic; index] =>
        let topic := if (topic =? "")%string then nick else topic in
        let new_item := strip (slice_from rest (finish + 1)) in
        Ok (topic, Some index, new_item)
    | _ => Raise ValueError
    end
  else Ok (nick, None, strip rest).

(** One round of the loop of [add], lines 305-308. The items are
    strings; nothing here looks into them, so the type is left open. *)
Definition add_step {A : Type} (new_item : A) (items : list A) (i : Z)
  : result (list A) :=
  if len items <=? i then Ok (append items new_item)
  else insert items (i + 1) new_item.

(** The loop of [add] over the indices in the order given. *)
Fixpoint add_loop {A : Type} (new_item : A) (items : list A) (order : list Z)
  : result (list A) :=
  match order with
  | [] => Ok items
  | i :: order' =>
      items ← add_step new_item items i;
      add_loop new_item items order'
  end.

(** Lines 301-308: the items after [add]. *)
Definition add_items {A : Type} (indices : list Z) (new_item : A)
  (items : list A) : result (list A) :=
  match indices with
  | [] => insert items 0 new_item
  | _ => add_loop new_item items (reversed (sorted_set indices))
  end.

(** The comprehension [[items.pop(i) for i in ... if len(items) > i >= 0]]
    of line 315: the popped items in the order of removal, and the items
    left. *)
Fixpoint pop_loop (indices : list Z) (items : list string)
  : result (list string * list string) :=
  match indices with
  | [] => Ok ([], items)
  | i :: indices' =>
      if (i <? len items) && (0 <=? i) then
        '(item, items) ← pop items i;
        '(popped, items) ← pop_loop indices' items;
        Ok (item :: popped, items)
      else pop_loop indices' items
  end.

(** Lines 312-316. *)
Definition pop_items (indices : list Z) (items : list string)
  : result (list string * list string) :=
  let indices := match indices with [] => [0] | _ => indices end in
  pop_loop (reversed (sorted_set indices)) items.

(** The comprehension [[(i, items[i]) for i in indices if len(items) > i
    >= 0]] shared by [show] and [shuffle]. *)
Definition select (indices : list Z) (items : list string)
  : result (list (Z * string)) :=
  mapM (fun i => item ← getitem items i; Ok (i, item))
       (filter (fun i => i < len items ∧ 0 ≤ i) indices).

(** ["%d: %s" % (i, item)] *)
Definition numbered (entry : Z * string) : string :=
  pretty entry.1 +:+ ": " +:+ entry.2.

(** ["-: %s" % (item,)] *)
Definition dashed (item : string) : string := "-: " +:+ item.

(** Lines 322-332: the response of [show]. *)
Definition show_items (indices : list Z) (new_item : string)
  (items : list string) : result string :=
  let sep :=
    if (new_item =? "")%string then Some " | "
    else if startswith "multiline" new_item then Some (String newline "")
    else None in
  match sep with
  | None => Ok Help.show
  | Some sep =>
      let indices :=
        match indices with [] => range 0 (len items) | _ => indices end in
      chosen ← select indices items;
      Ok (or_else (join sep ((fun e => numbered (e.1 + 1, e.2)) <$> chosen))
                  "(empty)")
  end.

(** Lines 334-337: the items after [shuffle]. *)
Definition shuffle_items (indices : list Z) (items : list string)
  : result (list string) :=
  match indices with
  | [] => Ok (random_shuffle items)
  | _ => chosen ← select indices items; Ok ((chosen : list (Z * string)).*2)
  end.

(** Lines 297-344 of [stack]: the subcommand applied to the topic, with
    the indices the parser gave. The first component is what the caller
    sees, the second the store after the call; the store is written at
    most once. *)
Definition perform (subcommand topic new_item : string) (indices : list Z)
  (store : gmap string (list string))
  : outcome * gmap string (list string) :=
  let items := get_items store topic in
  if (subcommand =? "add")%string then
    if (new_item =? "")%string then
      (Returned (Some "!stack add <topic[index]> item: You must provide an item to add."),
       store)
    else
      match add_items indices new_item items with
      | Raise e => (Uncaught e, store)
      | Ok items => (Returned None, save_items store topic items)
      end
  else if (subcommand =? "pop")%string then
    match pop_items indices items with
    | Raise e => (Uncaught e, store)
    | Ok (popped_items, items) =>
        (Returned (Some (or_else
           (join " | " (dashed <$> reversed popped_items))
           "(none popped)")),
         save_items store topic items)
    end
  else if (subcommand =? "show")%string then
    match show_items indices new_item items with
    | Raise e => (Uncaught e, store)
    | Ok response => (Returned (Some response), store)
    end
  else if (subcommand =? "shuffle")%string then
    match shuffle_items indices items with
    | Raise e => (Uncaught e, store)
    | Ok items =>
        (Returned (Some (or_else
           (join " | " (numbered <$> enumerate items 1))
           "(empty)")),
         save_items store topic items)
    end
  else if (subcommand =? "help")%string then
    (Returned (Some (Help.get new_item Help.help)), store)
  else (Returned (Some Help.stack), store).

(** The command function [stack(nick, rest)]. *)
Definition stack (nick rest : string) (store : gmap string (list string))
  : outcome * gmap string (list string) :=
  let '(subcommand, rest) := split_subcommand rest in
  match command_syntax nick rest with
  | Raise e => (Uncaught e, store)
  | Ok (topic, index, new_item) =>
      let items := get_items store topic in
      match parse_index index items with
      | Raise ValueError => (Returned (Some Help.index), store)
      | Raise e => (Uncaught e, store)
      | Ok indices => perform subcommand topic new_item indices store
      end
  end.

End Stack.

(** ** [pmxbot/quotesplus.py]

    [split_num] and [lookup] of [QuotesPlus], with the methods of
    [MongoDBQuotes] they and [delete] rest on. *)

Module QuotesPlus.

(** [s.rpartition(sep)] for a separator of one character. *)
Definition rpartition (s : string) (sep : ascii) : string * string * string :=
  let i := rfind s sep in
  if i =? -1 then ("", "", s)
  else (slice_to s i, String sep "", slice_from s (i + 1)).

(** [s.isdigit()] *)
Fixpoint all_digits (s : string) : bool :=
  match s with
  | String c s' =>
      match Int.digit c with Some _ => all_digits s' | None => false end
  | EmptyString => true
  end.

Definition isdigit (s : string) : bool :=
  negb (s =? "")%string && all_digits s.

(** [s.split()]: the words between runs of white space; [word] is the
    word read so far. *)
Fixpoint words (s : string) (word : string) : list string :=
  match s with
  | String c s' =>
      if isspace c then
        if (word =? "")%string then words s' "" else word :: words s' ""
      else words s' (word +:+ String c "")
  | EmptyString => if (word =? "")%string then [] else [word]
  end.

Definition split_words (s : string) : list string := words s "".

(** [QuotesPlus.split_num] *)
Definition split_num (lookup : string) : result (string * Z) :=
  let '(prefix, _, num) := rpartition lookup " " in
  if (prefix =? "")%string || negb (isdigit num) then Ok (lookup, 0)
  else
    num ← Int.int num;
    Ok (prefix, num).

(** A document of the collection [quotes]. *)
Record quote : Type := Quote { _id : Z; library : string; text : string }.

#[global] Instance quote_eq_dec : EqDecision quote.
Proof. solve_decision. Defined.

(** The order of [sort('_id')]. *)
Definition id_le (a b : quote) : Prop := _id a ≤ _id b.

#[global] Instance id_le_dec a b : Decision (id_le a b).
Proof. unfold id_le. apply _. Defined.

(** [db.find(dict(library=lib)).sort('_id')] *)
Definition find_sorted (db : list quote) (lib : string) : list quote :=
  merge_sort id_le (filter (fun row => library row = lib) db).

(** [db.delete_one(row)]: the first document equal to [row] goes. *)
Fixpoint delete_one (db : list quote) (row : quote) : list quote :=
  match db with
  | [] => []
  | d :: db' => if decide (d = row) then db' else d :: delete_one db' row
  end.

Section store.

(** [random.randrange(n)] *)
Variable randrange : Z → Z.

(** [MongoDBQuotes.find_matches] *)
Definition find_matches (db : list quote) (lib thing : string) : list quote :=
  let thing := lower (strip thing) in
  let words := split_words thing in
  let matches (quote : string) : bool :=
    let quote := lower quote in
    forallb (fun word => contains quote word) words in
  filter (fun row => matches (text row) = true) (find_sorted db lib).

(** [MongoDBQuotes.lookup_with_num] *)
Definition lookup_with_num (db : list quote) (lib thing : string) (num : Z)
  : result (string * Z * Z) :=
  let results := text <$> find_matches db lib thing in
  let n := len results in
  if 0 <? n then
    let i := if num =? 0 then randrange n else num - 1 in
    quote ← getitem results i;
    Ok (quote, i + 1, n)
  else Ok ("", 0 + 1, n).

(** [QuotesPlus.lookup], on a [MongoDBQuotes] store *)
Definition lookup (db : list quote) (lib rest : string)
  : result (string * Z * Z) :=
  let rest := strip rest in
  '(thing, num) ← split_num rest;
  lookup_with_num db lib thing num.

(** [MongoDBQuotes.delete]: the collection after the call. Unpacking
    [(result,) = ...] raises [ValueError] unless there is one match. *)
Definition delete (db : list quote) (lib lookup : string)
  : result (list quote) :=
  '(lookup, num) ← split_num lookup;
  result ←
    (if num =? 0 then
       match find_matches db lib lookup with
       | [result] => Ok result
       | _ => Raise ValueError
       end
     else getitem (find_matches db lib lookup) (num - 1));
  Ok (delete_one db result).

End store.

End QuotesPlus.

(** * Vocabulary of the statements

    The definitions of this part are not taken from [stack.py]: they say,
    in the words of the specification, what the functions above are
    compared with. *)

(** [sub] occurs in [s]. *)
Definition occurs_in (sub s : string) : Prop :=
  ∃ pre post, s = pre +:+ sub +:+ post.

(** [rest] opens with a bracketed [topic[index]]: [pre] runs up to the
    first opening bracket and has no blank, [post] follows the last
    closing bracket. *)
Definition bracketed (rest pre mid post : string) : Prop :=
  rest = pre +:+ String "[" (mid +:+ String "]" post)
  ∧ ¬ occurs_in "[" pre ∧ ¬ occurs_in " " pre ∧ ¬ occurs_in "]" post.

(** The characters an integer literal can start with. *)
Definition literal_head (c : ascii) : Prop :=
  c = "+"%char ∨ c = "-"%char ∨ is_Some (Int.digit c).

(** The characters that open a quoted or a regex atom. *)
Definition opens_match (c : ascii) : Prop :=
  c = squote ∨ c = dquote ∨ c = "/"%char.

(** The item at the 0-based position [i], when [0 <= i < len(items)]. *)
Definition at_position (items : list string) (i : Z) : option string :=
  if decide (0 ≤ i) then items !! Z.to_nat i else None.

(** For each index in the given order, the index with the item at that
    position; an index without an item is passed over. *)
Definition chosen (indices : list Z) (items : list string) : list (Z * string) :=
  omap (fun i => pair i <$> at_position items i) indices.

(** The line [show] prints for position [i]: the 1-based position, a
    colon and the item. *)
Definition show_line (items : list string) (i : Z) : option string :=
  (fun item => pretty (i + 1) +:+ ": " +:+ item) <$> at_position items i.

(** The entries joined by [sep], or [none] when there is no entry. *)
Definition joined_or (none sep : string) (entries : list string) : string :=
  match entries with
  | [] => none
  | _ => join sep entries
  end.

(** The items whose 0-based position is among [positions], in ascending
    position. *)
Definition items_at (positions : list Z) (items : list string) : list string :=
  (filter (fun e => e.1 ∈ positions) (enumerate items 0)).*2.

(** The items whose 0-based position is not among [positions], in their
    order. *)
Definition items_except (positions : list Z) (items : list string) : list string :=
  (filter (fun e => e.1 ∉ positions) (enumerate items 0)).*2.

(** [new_item] put immediately after the 0-based position [i]: the items
    at the positions up to [i], the new item, the items at the positions
    above [i]. *)
Definition insert_after (new_item : string) (items : list string) (i : Z)
  : list string :=
  take (Z.to_nat (i + 1)) items ++ new_item :: drop (Z.to_nat (i + 1)) items.

(** One index of [add] in the words of the specification: at or above the
    current length the new item goes to the end, below it goes immediately
    after the index. *)
Definition add_at (new_item : string) (items : list string) (i : Z)
  : list string :=
  if decide (len items ≤ i) then items ++ [new_item]
  else insert_after new_item items i.

(** [new_item] put before the last [k] items: where [list.insert] puts it
    for the position [-k]. *)
Definition insert_before_last (new_item : string) (items : list string) (k : Z)
  : list string :=
  take (length items - Z.to_nat k) items
  ++ new_item :: drop (length items - Z.to_nat k) items.

(** A run of [add] commands on one topic: the indices and the new item of
    each, in the order of the commands; the items after the run, or the
    exception of the first command that raises. *)
Fixpoint add_all {A : Type} (adds : list (list Z * A)) (items : list A)
  : result (list A) :=
  match adds with
  | [] => Ok items
  | a :: adds' =>
      items ← add_items a.1 a.2 items;
      add_all adds' items
  end.

(** Items that carry a mark: [false] on the items that were there before,
    [true] on the ones an [add] puts in. The mark is bookkeeping for the
    statement of the round trip; [add] does not look into the items, so
    the same run is taken on the marked items. *)
Definition mark_new (a : list Z * string) : list Z * (bool * string) :=
  (a.1, (true, a.2)).

Definition mark_old (items : list string) : list (bool * string) :=
  pair false <$> items.

(** The 0-based positions of the marked items. *)
Definition marked_positions (items : list (bool * string)) : list Z :=
  (filter (fun e => e.2.1 = true) (enumerate items 0)).*1.

(** The positions at which a run of [add] commands left its new items. *)
Definition inserted_positions (adds : list (list Z * string))
  (items : list string) : list Z :=
  match add_all (mark_new <$> adds) (mark_old items) with
  | Ok marked => marked_positions marked
  | Raise _ => []
  end.

(** How many items one [add] puts in: one for each distinct index, one
    when there is no index. *)
Definition inserted_count (indices : list Z) : nat :=
  match indices with
  | [] => 1
  | _ => length (remove_dups indices)
  end.

(** The new items of a run of [add] commands, each as often as it was put
    in. *)
Definition inserted_items (adds : list (list Z * string)) : list string :=
  adds ≫= fun a => replicate (inserted_count a.1) a.2.

(** Every character of [s] is white space. *)
Definition all_space (s : string) : Prop :=
  ∀ c, occurs_in (String c "") s → isspace c = true.

(** Every character of [s] is white space or a comma. *)
Definition blank_or_comma (s : string) : Prop :=
  ∀ c, occurs_in (String c "") s → isspace c = true ∨ c = ","%char.

(** The characters of an integer literal: digits, the underscore and the
    two signs. *)
Definition literal_char (c : ascii) : Prop :=
  is_Some (Int.digit c) ∨ c = "_"%char ∨ c = "+"%char ∨ c = "-"%char.

(** ** Instances for the examples *)

(** An instance of [re.search]: the lone opening parenthesis is a pattern
    that does not compile, and a pattern without special characters is
    searched for as it stands. The examples use no other pattern. *)
Definition re_plain (pattern text : string) : result bool :=
  if (pattern =? "(")%string then Raise ReError else Ok (contains text pattern).

(** An instance of [random.shuffle]: the draw that leaves the items as
    they are. *)
Definition keep_order (items : list string) : list string := items.

(** The stack [a, b, c] under the topic [n]. *)
Definition abc : gmap string (list string) := {[ "n" := ["a"; "b"; "c"] ]}.

(** The draw of [random.randrange] that is always the first. *)
Definition first_draw (n : Z) : Z := 0.

(** The quotes of the test [test_MongoDBQuotes], with one of another
    library between them. *)
Definition test_quotes : list QuotesPlus.quote :=
  [ QuotesPlus.Quote 3 "test" "let's do the Time Warp again";
    QuotesPlus.Quote 1 "test" "who would ever say such a thing";
    QuotesPlus.Quote 4 "album" "Time Out";
    QuotesPlus.Quote 2 "test" "go ahead, take my pay" ].

(** * Facts and theorems *)

(** ** Strings *)

Section append_and_containment.
Implicit Types (s p : string) (c : ascii).

Lemma sapp_nil_l s : "" +:+ s = s.
Proof. reflexivity. Qed.

Lemma sapp_cons c s p : String c s +:+ p = String c (s +:+ p).
Proof. reflexivity. Qed.

Lemma sapp_nil_r s : s +:+ "" = s.
Proof. induction s as [|c s IH]; [done|]. by rewrite sapp_cons, IH. Qed.

Lemma sapp_assoc s p r : (s +:+ p) +:+ r = s +:+ (p +:+ r).
Proof. induction s as [|c s IH]; [done|]. by rewrite !sapp_cons, IH. Qed.

Lemma sapp_length s p :
  String.length (s +:+ p) = (String.length s + String.length p)%nat.
Proof. induction s as [|c s IH]; [done|]. rewrite sapp_cons. simpl. by rewrite IH. Qed.

Lemma prefix_spec p s : String.prefix p s = true ↔ ∃ post, s = p +:+ post.
Proof.
  revert s. induction p as [|a p IH]; intros [|b s]; simpl.
  - split; [by exists ""|done].
  - split; [by exists (String b s)|done].
  - split; [done|intros [post H]; discriminate].
  - destruct (ascii_dec a b) as [->|Hne].
    + rewrite IH. split; intros [post H]; exists post.
      * by rewrite sapp_cons, H.
      * rewrite sapp_cons in H. congruence.
    + split; [done|]. intros [post H]. rewrite sapp_cons in H. congruence.
Qed.

Lemma contains_spec s sub : contains s sub = true ↔ occurs_in sub s.
Proof.
  induction s as [|c s IH]; cbn [contains].
  - rewrite orb_false_r, prefix_spec. split.
    + intros [post H]. by exists "", post.
    + intros (pre & post & H). destruct pre; [by exists post|discriminate].
  - rewrite orb_true_iff, prefix_spec, IH. split.
    + intros [[post H]|(pre & post & H)].
      * by exists "", post.
      * exists (String c pre), post. by rewrite sapp_cons, H.
    + intros (pre & post & H). destruct pre as [|d pre].
      * left. by exists post.
      * right. exists pre, post. rewrite sapp_cons in H. congruence.
Qed.

Lemma contains_empty s : contains s "" = true.
Proof. apply contains_spec. exists "", s. by rewrite sapp_nil_l. Qed.
End append_and_containment.

(** ** The scan of the items for one atom *)

Lemma matching_pure (f : string → bool) (items : list string) (k : Z) :
  ∃ l, matching (fun item => Ok (f item)) (enumerate items k) = Ok l
     ∧ StronglySorted Z.lt l
     ∧ ∀ i, i ∈ l ↔
         k ≤ i ∧ ∃ item, items !! Z.to_nat (i - k) = Some item ∧ f item = true.
Proof.
  revert k. induction items as [|x items IH]; intros k.
  - exists []. split; [done|]. split; [constructor|].
    intros i. rewrite elem_of_nil. split; [done|]. by intros [_ (item & ? & _)].
  - destruct (IH (k + 1)) as (l & Hl & Hsorted & Hin).
    cbn [enumerate matching]. rewrite Hl. cbn.
    assert (Hlb : Forall (Z.lt k) l).
    { apply Forall_forall. intros i Hi%Hin. lia. }
    assert (Hshift : ∀ i, k + 1 ≤ i →
      (x :: items) !! Z.to_nat (i - k) = items !! Z.to_nat (i - (k + 1))).
    { intros i Hi. replace (Z.to_nat (i - k)) with (S (Z.to_nat (i - (k + 1)))) by lia.
      done. }
    destruct (f x) eqn:Hfx; eexists; (split; [reflexivity|]); split.
    + by constructor.
    + intros i. rewrite elem_of_cons, Hin. split.
      * intros [->|[Hi (item & Hitem & Hf)]].
        -- split; [lia|]. exists x. by rewrite Z.sub_diag.
        -- split; [lia|]. exists item. by rewrite Hshift.
      * intros [Hi (item & Hitem & Hf)].
        destruct (decide (i = k)) as [->|Hne]; [by left|right].
        split; [lia|]. exists item. by rewrite <-Hshift by lia.
    + done.
    + intros i. rewrite Hin. split.
      * intros [Hi (item & Hitem & Hf)].
        split; [lia|]. exists item. by rewrite Hshift.
      * intros [Hi (item & Hitem & Hf)].
        destruct (decide (i = k)) as [->|Hne].
        { rewrite Z.sub_diag in Hitem. simpl in Hitem. congruence. }
        split; [lia|]. exists item. by rewrite <-Hshift by lia.
Qed.

Lemma matching_all (test : string → result bool) (items : list string) (k : Z) :
  (∀ item, test item = Ok true) →
  matching test (enumerate items k) = Ok (seqZ k (len items)).
Proof.
  intros Htest. revert k. induction items as [|x items IH]; intros k.
  - done.
  - cbn [enumerate matching]. rewrite Htest, IH. cbn.
    unfold len. rewrite (seqZ_cons k) by (simpl; lia).
    do 3 f_equal. simpl. lia.
Qed.

Section strip_slice_find.
Implicit Types (s p : string) (c : ascii).

Lemma snoc_nonempty s c : s +:+ String c "" ≠ "".
Proof. by destruct s. Qed.

Lemma lstrip_cons c s : isspace c = false → lstrip (String c s) = String c s.
Proof. intros H. simpl. by rewrite H. Qed.

Lemma rstrip_snoc s c :
  isspace c = false → rstrip (s +:+ String c "") = s +:+ String c "".
Proof.
  intros Hc. induction s as [|a s IH].
  - simpl. by rewrite Hc.
  - rewrite sapp_cons. cbn [rstrip]. rewrite IH.
    by destruct (s +:+ String c "") eqn:E; [destruct (snoc_nonempty _ _ E)|].
Qed.

Lemma strip_enclosed c s c' :
  isspace c = false → isspace c' = false →
  strip (String c (s +:+ String c' "")) = String c (s +:+ String c' "").
Proof.
  intros Hc Hc'. unfold strip. rewrite lstrip_cons by done.
  by rewrite <-sapp_cons, rstrip_snoc.
Qed.

Lemma take_chars_app s p : take_chars (String.length s) (s +:+ p) = s.
Proof.
  induction s as [|a s IH]; [by destruct p|].
  rewrite sapp_cons. simpl. by rewrite IH.
Qed.

Lemma drop_chars_app s p : drop_chars (String.length s) (s +:+ p) = p.
Proof. induction s as [|a s IH]; [by destruct p|]. done. Qed.

Lemma adjust_inside n i : 0 ≤ i ≤ n → adjust n i = i.
Proof. intros H. unfold adjust. cbv zeta. repeat case_match; lia. Qed.

Lemma adjust_from_end n i : - n ≤ i < 0 → adjust n i = i + n.
Proof. intros H. unfold adjust. cbv zeta. repeat case_match; lia. Qed.

Lemma slice_enclosed c s c' : slice (String c (s +:+ String c' "")) 1 (-1) = s.
Proof.
  unfold slice, Str.len. cbn [String.length]. rewrite sapp_length.
  cbn [String.length].
  rewrite (adjust_inside _ 1), (adjust_from_end _ (-1)) by lia.
  replace (Z.to_nat 1) with 1%nat by done. cbn [drop_chars].
  match goal with |- take_chars ?n _ = _ =>
    replace n with (String.length s) by lia end.
  apply take_chars_app.
Qed.

Lemma startswith_cons c s : startswith (String c s) (String c "") = true.
Proof.
  unfold startswith. simpl. destruct (ascii_dec c c); [by destruct s|done].
Qed.

Lemma startswith_cons_ne c c' s :
  c ≠ c' → startswith (String c s) (String c' "") = false.
Proof. intros H. unfold startswith. simpl. by destruct (ascii_dec c' c). Qed.

Lemma endswith_snoc s c : endswith (s +:+ String c "") (String c "") = true.
Proof.
  induction s as [|a s IH].
  - simpl. by rewrite Ascii.eqb_refl.
  - rewrite sapp_cons. cbn [endswith]. rewrite IH. by case String.eqb.
Qed.

Lemma find_range s c : -1 ≤ find s c < Str.len s.
Proof.
  unfold Str.len. induction s as [|a s IH]; cbn [find String.length]; [lia|].
  destruct (Ascii.eqb a c); [lia|]. destruct (Z.eqb_spec (find s c) (-1)); lia.
Qed.

Lemma rfind_range s c : -1 ≤ rfind s c < Str.len s.
Proof.
  unfold Str.len. induction s as [|a s IH]; cbn [rfind String.length]; [lia|].
  destruct (Z.eqb_spec (rfind s c) (-1)); [|lia].
  destruct (Ascii.eqb a c); lia.
Qed.

Lemma find_cons a s c :
  find (String a s) c =
    if Ascii.eqb a c then 0 else if find s c =? -1 then -1 else find s c + 1.
Proof. reflexivity. Qed.

Lemma find_absent s c : find s c = -1 ↔ ¬ occurs_in (String c "") s.
Proof.
  induction s as [|a s IH].
  - split; [|done]. intros _ (pre & post & H). by destruct pre.
  - rewrite find_cons. pose proof (find_range s c) as Hr.
    destruct (Ascii.eqb_spec a c) as [->|Hne].
    + split; [done|]. intros H. destruct H. by exists "", s.
    + destruct (Z.eqb_spec (find s c) (-1)) as [E|E].
      * split; [|done]. intros _ (pre & post & H).
        apply (proj1 IH E).
        destruct pre as [|b pre].
        { rewrite sapp_nil_l, sapp_cons in H. by injection H. }
        rewrite sapp_cons in H. exists pre, post. by injection H.
      * split; [lia|]. intros Hno. destruct E. apply IH.
        intros (pre & post & H). apply Hno.
        exists (String a pre), post. by rewrite sapp_cons, H.
Qed.

Lemma split_absent s c : find s c = -1 → split s c = [s].
Proof.
  induction s as [|a s IH]; [done|].
  rewrite find_cons. cbn [split]. pose proof (find_range s c) as Hr.
  destruct (Ascii.eqb a c); [done|].
  destruct (Z.eqb_spec (find s c) (-1)) as [E|E]; [|lia].
  intros _. by rewrite IH.
Qed.
End strip_slice_find.

Section occurrences.
Implicit Types (s p : string) (c : ascii).

Lemma endswith_enclosed c s c' :
  endswith (String c (s +:+ String c' "")) (String c' "") = true.
Proof. rewrite <-sapp_cons. apply endswith_snoc. Qed.

Lemma occurs_cons c a s :
  occurs_in (String c "") (String a s) ↔ c = a ∨ occurs_in (String c "") s.
Proof.
  split.
  - intros (pre & post & H). destruct pre as [|b pre].
    + rewrite sapp_nil_l, sapp_cons in H. injection H as -> _. by left.
    + rewrite sapp_cons in H. injection H as -> H. right. by exists pre, post.
  - intros [->|(pre & post & ->)].
    + by exists "", s.
    + by exists (String a pre), post.
Qed.

Lemma occurs_nil c : ¬ occurs_in (String c "") "".
Proof. intros (pre & post & H). by destruct pre. Qed.

Lemma occurs_app c s p :
  occurs_in (String c "") (s +:+ p)
  ↔ occurs_in (String c "") s ∨ occurs_in (String c "") p.
Proof.
  induction s as [|a s IH].
  - rewrite sapp_nil_l. split; [by right|]. intros [[]%occurs_nil|]; done.
  - rewrite sapp_cons, !occurs_cons, IH. tauto.
Qed.
End occurrences.

(** ** Quoted atoms *)

Section quoted_atoms.
Context (re_search : string → string → result bool).

Lemma parse_atoms_single items atom :
  strip atom = atom → atom ≠ "" →
  parse_atoms re_search items [atom] [] = parse_atom re_search items atom.
Proof.
  intros Hs Hne. cbn [parse_atoms]. rewrite Hs.
  destruct (String.eqb_spec atom "") as [|_]; [done|].
  by destruct (parse_atom re_search items atom).
Qed.

Lemma parse_atom_quoted q text items :
  q = squote ∨ q = dquote →
  parse_atom re_search items (String q (text +:+ String q "")) =
    matching (fun item => Ok (contains (lower item) (lower text)))
             (enumerate items 0).
Proof.
  intros Hq. unfold parse_atom. rewrite slice_enclosed.
  destruct Hq as [-> | ->].
  - by rewrite startswith_cons, endswith_enclosed.
  - rewrite (startswith_cons_ne dquote squote) by done.
    by rewrite startswith_cons, endswith_enclosed.
Qed.

(** Claim C7. A quoted atom, [text] between two single or two double
    quotes, gives the positions of the items whose lower-cased text
    contains the lower-cased [text], in ascending order: the list [l] the
    atom contributes is strictly ascending, and a position is in it exactly
    when an item is there and the lower-cased [text] occurs in its
    lower-cased text. A [text] without comma is an index expression of its
    own, and [parse_index] gives the same list. *)
Theorem quoted_atom_positions q text items :
  q = squote ∨ q = dquote →
  ∃ l, parse_atom re_search items (String q (text +:+ String q "")) = Ok l
     ∧ (¬ occurs_in "," text →
        parse_index re_search (Some (String q (text +:+ String q ""))) items = Ok l)
     ∧ StronglySorted Z.lt l
     ∧ ∀ i, i ∈ l ↔
         0 ≤ i ∧ ∃ item, items !! Z.to_nat i = Some item
                       ∧ occurs_in (lower text) (lower item).
Proof.
  intros Hq.
  destruct (matching_pure (fun item => contains (lower item) (lower text)) items 0)
    as (l & Hl & Hsorted & Hin).
  assert (Hatom : parse_atom re_search items (String q (text +:+ String q "")) = Ok l)
    by (by rewrite parse_atom_quoted).
  assert (Hsp : isspace q = false) by (by destruct Hq as [-> | ->]).
  exists l. split_and!; [done| |done|].
  - intros Hcomma. unfold parse_index.
    rewrite split_absent, parse_atoms_single; [done| |done|].
    + by apply strip_enclosed.
    + apply find_absent. rewrite occurs_cons, occurs_app, occurs_cons.
      intros [E|[?|[E|[]%occurs_nil]]]; [|done|];
        destruct Hq; subst q; discriminate E.
  - intros i. rewrite Hin, Z.sub_0_r.
    by setoid_rewrite contains_spec.
Qed.
End quoted_atoms.

Section lone_quote.
Context (re_search : string → string → result bool).

(** Claim C10. An atom that is one quote character, single or double, is
    taken as quoting the empty text, not refused: it gives every position
    [0 .. length-1] in ascending order, since the empty text occurs in
    every item. *)
Theorem lone_quote_selects_all (items : list string) :
  parse_index re_search (Some (String squote "")) items = Ok (seqZ 0 (len items))
  ∧ parse_index re_search (Some (String dquote "")) items = Ok (seqZ 0 (len items)).
Proof.
  split.
  - trans (matching (fun item => Ok (contains (lower item) "")) (enumerate items 0)
           ≫= fun found => Ok ([] ++ found)); [reflexivity|].
    rewrite matching_all; [done|]. intros item. by rewrite contains_empty.
  - trans (matching (fun item => Ok (contains (lower item) "")) (enumerate items 0)
           ≫= fun found => Ok ([] ++ found)); [reflexivity|].
    rewrite matching_all; [done|]. intros item. by rewrite contains_empty.
Qed.
End lone_quote.

(** ** Range atoms *)

Lemma seqZ_sorted (m n : Z) : StronglySorted Z.lt (seqZ m n).
Proof.
  destruct (Z.le_gt_cases n 0) as [Hn|Hn]; [rewrite seqZ_nil by done; constructor|].
  rewrite <-(Z2Nat.id n) by lia. generalize (Z.to_nat n) as k. clear.
  intros k. revert m. induction k as [|k IH]; intros m.
  - rewrite seqZ_nil by done. constructor.
  - rewrite seqZ_cons by lia. constructor.
    + replace (Z.pred (Z.of_nat (S k))) with (Z.of_nat k) by lia. apply IH.
    + apply Forall_seqZ. lia.
Qed.

Section int_literals.
Implicit Types (s : string) (c : ascii).


Lemma rstrip_head c s :
  isspace c = false → ∃ r, rstrip (String c s) = String c r.
Proof.
  intros Hc. cbn [rstrip]. destruct (rstrip s); rewrite ?Hc; eauto.
Qed.

Lemma strip_head c s :
  isspace c = false → ∃ r, strip (String c s) = String c r.
Proof. intros Hc. unfold strip. rewrite lstrip_cons by done. by apply rstrip_head. Qed.

Lemma blank_isspace c : Int.blank c = true → isspace c = true.
Proof.
  unfold Int.blank, isspace. generalize (nat_of_ascii c). intros n.
  rewrite !orb_true_iff, !andb_true_iff, !Nat.leb_le, Nat.eqb_eq. lia.
Qed.

Lemma int_head c s z :
  isspace c = false → Int.int (String c s) = Ok z → literal_head c.
Proof.
  intros Hc. unfold Int.int. cbn [Int.skip_blanks].
  destruct (Int.blank c) eqn:Hb; [apply blank_isspace in Hb; congruence|].
  cbn [Int.drop_trailing_blanks].
  assert (∃ r, (match Int.drop_trailing_blanks s with
                | "" => if Int.blank c then "" else String c ""
                | String _ _ as r' => String c r'
                end) = String c r) as [r ->].
  { destruct (Int.drop_trailing_blanks s); rewrite ?Hb; eauto. }
  unfold literal_head, Int.signed_digits.
  destruct (decide (c = "+"%char)) as [->|H1]; [auto|].
  destruct (decide (c = "-"%char)) as [->|H2]; [auto|].
  intros H. right; right.
  assert (Int.digits (String c r) 0 false ≠ None) as Hd.
  { intros Hd. revert H.
    destruct c as [[] [] [] [] [] [] [] []]; try congruence; rewrite Hd; done. }
  cbn [Int.digits] in Hd. destruct (Int.digit c); [done|].
  by rewrite andb_false_r in Hd.
Qed.

Lemma int_or_head c s d z :
  isspace c = false → int_or (strip (String c s)) d = Ok z → literal_head c.
Proof.
  intros Hc. destruct (strip_head c s Hc) as [r ->].
  unfold int_or. cbn [String.eqb]. by apply int_head.
Qed.
End int_literals.

Lemma split1_first s c p :
  ¬ occurs_in (String c "") s → split1 (s +:+ String c p) c = [s; p].
Proof.
  induction s as [|a s IH]; intros Hno.
  - rewrite sapp_nil_l. cbn [split1]. by rewrite Ascii.eqb_refl.
  - rewrite sapp_cons. cbn [split1]. rewrite occurs_cons in Hno.
    destruct (Ascii.eqb_spec a c) as [->|_]; [tauto|].
    rewrite IH by tauto. done.
Qed.


Lemma literal_head_not_opening c : literal_head c → ¬ opens_match c.
Proof.
  intros [-> | [-> | [d Hd] ] ] [E | [E | E] ]; subst; discriminate.
Qed.

Lemma space_not_opening c : isspace c = true → ¬ opens_match c.
Proof. intros Hc [E | [E | E] ]; subst; discriminate. Qed.

Lemma range_head_not_opening sA sB d A :
  int_or (strip sA) d = Ok A →
  ∃ c r, sA +:+ String ":" sB = String c r ∧ ¬ opens_match c.
Proof.
  intros HA. destruct sA as [|c r].
  - exists ":"%char, sB. split; [done|]. intros [|[|]]; discriminate.
  - exists c, (r +:+ String ":" sB). split; [done|].
    destruct (isspace c) eqn:Hc; [by apply space_not_opening|].
    eapply literal_head_not_opening, int_or_head; eauto.
Qed.

Section range_atoms.
Context (re_search : string → string → result bool).

Lemma parse_atom_range items sA sB A B :
  ¬ occurs_in ":" sA →
  int_or (strip sA) 1 = Ok A →
  int_or (strip sB) (len items) = Ok B →
  parse_atom re_search items (sA +:+ String ":" sB)
  = Ok (range (from_bottom A items - 1) (from_bottom B items - 1 + 1)).
Proof.
  intros Hcolon HA HB.
  destruct (range_head_not_opening sA sB 1 A HA) as (c & r & Hatom & Hc).
  unfold parse_atom. rewrite Hatom.
  rewrite !startswith_cons_ne by (intros ->; apply Hc; unfold opens_match; auto).
  cbn [andb orb]. rewrite <-Hatom.
  assert (contains (sA +:+ String ":" sB) ":" = true) as ->.
  { apply contains_spec. by exists sA, sB. }
  rewrite split1_first by done. cbn [fmap list_fmap].
  rewrite HA. cbn. by rewrite HB.
Qed.

(** Claim C4. A range atom [A:B] against [n] items: an omitted [A] is 1,
    an omitted [B] is [n] ([int_or]); a negative bound has [n + 1] added
    ([from_bottom]); both are lowered by one; the atom contributes the
    integers from the converted [A] to the converted [B], both included, in
    ascending order, and none, without an error, when the converted [A]
    exceeds the converted [B]. *)
Theorem range_atom_positions items sA sB A B :
  ¬ occurs_in ":" sA →
  int_or (strip sA) 1 = Ok A →
  int_or (strip sB) (len items) = Ok B →
  let a := from_bottom A items - 1 in
  let b := from_bottom B items - 1 in
  ∃ l, parse_atom re_search items (sA +:+ String ":" sB) = Ok l
     ∧ (strip (sA +:+ String ":" sB) = sA +:+ String ":" sB →
        ¬ occurs_in "," (sA +:+ String ":" sB) →
        parse_index re_search (Some (sA +:+ String ":" sB)) items = Ok l)
     ∧ l = seqZ a (b - a + 1)
     ∧ StronglySorted Z.lt l
     ∧ (∀ i, i ∈ l ↔ a ≤ i ≤ b)
     ∧ (b < a → l = []).
Proof.
  intros Hcolon HA HB a b.
  pose proof (parse_atom_range items sA sB A B Hcolon HA HB) as Hatom.
  exists (seqZ a (b - a + 1)).
  assert (range (from_bottom A items - 1) (from_bottom B items - 1 + 1)
          = seqZ a (b - a + 1)) as Hrange.
  { unfold range. f_equal. subst a b. lia. }
  rewrite Hrange in Hatom. split_and!; [done| |done| | |].
  - intros Hstrip Hcomma. unfold parse_index.
    rewrite split_absent by (by apply find_absent).
    rewrite parse_atoms_single; [done|done|]. by destruct sA.
  - apply seqZ_sorted.
  - intros i. rewrite elem_of_seqZ. lia.
  - intros Hlt. apply seqZ_nil. lia.
Qed.
End range_atoms.

(** ** The topic, the index expression and the payload *)

Section find_and_rfind.
Implicit Types (s p : string) (c : ascii).

Lemma len_app s p : Str.len (s +:+ p) = Str.len s + Str.len p.
Proof. unfold Str.len. rewrite sapp_length. lia. Qed.

Lemma len_cons c s : Str.len (String c s) = 1 + Str.len s.
Proof. unfold Str.len. cbn [String.length]. lia. Qed.

Lemma len_nonneg s : 0 ≤ Str.len s.
Proof. unfold Str.len. lia. Qed.

Lemma rfind_cons a s c :
  rfind (String a s) c =
    if rfind s c =? -1 then (if Ascii.eqb a c then 0 else -1) else rfind s c + 1.
Proof. reflexivity. Qed.

Lemma find_app s p c :
  find (s +:+ p) c =
    if find s c =? -1
    then (if find p c =? -1 then -1 else Str.len s + find p c)
    else find s c.
Proof.
  induction s as [|a s IH].
  - rewrite sapp_nil_l. cbn [find]. change (Str.len "") with 0.
    destruct (Z.eqb_spec (find p c) (-1)); simpl; lia.
  - rewrite sapp_cons, !find_cons, IH, len_cons.
    pose proof (find_range s c). pose proof (find_range p c).
    pose proof (len_nonneg s).
    destruct (Ascii.eqb a c); [done|].
    destruct (Z.eqb_spec (find s c) (-1)), (Z.eqb_spec (find p c) (-1));
      repeat match goal with
             | |- context [?x =? ?y] => destruct (Z.eqb_spec x y); try lia
             end.
Qed.

Lemma rfind_app s p c :
  rfind (s +:+ p) c =
    if rfind p c =? -1 then rfind s c else Str.len s + rfind p c.
Proof.
  induction s as [|a s IH].
  - rewrite sapp_nil_l. change (Str.len "") with 0. cbn [rfind].
    destruct (Z.eqb_spec (rfind p c) (-1)); lia.
  - rewrite sapp_cons, !rfind_cons, IH, len_cons.
    pose proof (rfind_range s c). pose proof (rfind_range p c).
    pose proof (len_nonneg s).
    destruct (Z.eqb_spec (rfind p c) (-1)), (Z.eqb_spec (rfind s c) (-1));
      repeat match goal with
             | |- context [?x =? ?y] => destruct (Z.eqb_spec x y); try lia
             end; done.
Qed.

Lemma rfind_absent s c : rfind s c = -1 ↔ ¬ occurs_in (String c "") s.
Proof.
  induction s as [|a s IH].
  - split; [|done]. intros _. apply occurs_nil.
  - rewrite rfind_cons, occurs_cons. pose proof (rfind_range s c).
    destruct (Z.eqb_spec (rfind s c) (-1)) as [E|E].
    + destruct (Ascii.eqb_spec a c) as [->|Hne].
      * split; [done|]. intros []. by left.
      * split; [|done]. intros _ [->|Hin]; [done|]. by apply IH.
    + split; [lia|]. intros Hno. destruct E. apply IH. tauto.
Qed.

Lemma find_first s c p :
  ¬ occurs_in (String c "") s → find (s +:+ String c p) c = Str.len s.
Proof.
  intros Hno%find_absent. rewrite find_app, Hno, find_cons, Ascii.eqb_refl.
  simpl. lia.
Qed.

Lemma rfind_last s c p :
  ¬ occurs_in (String c "") p → rfind (s +:+ String c p) c = Str.len s.
Proof.
  intros Hno%rfind_absent. rewrite rfind_app, rfind_cons, Hno, Ascii.eqb_refl.
  simpl. lia.
Qed.

Lemma find_split s c :
  find s c ≠ -1 →
  ∃ pre p, s = pre +:+ String c p ∧ ¬ occurs_in (String c "") pre
         ∧ Str.len pre = find s c.
Proof.
  induction s as [|a s IH]; [done|].
  rewrite find_cons. pose proof (find_range s c).
  destruct (Ascii.eqb_spec a c) as [->|Hne].
  - intros _. exists "", s. split_and!; [done|apply occurs_nil|done].
  - destruct (Z.eqb_spec (find s c) (-1)) as [E|E]; [done|]. intros _.
    destruct (IH E) as (pre & p & -> & Hno & Hlen).
    exists (String a pre), p. split_and!; [done| |].
    + rewrite occurs_cons. intros [->|?]; done.
    + rewrite len_cons. lia.
Qed.

Lemma rfind_split s c :
  rfind s c ≠ -1 →
  ∃ q post, s = q +:+ String c post ∧ ¬ occurs_in (String c "") post
          ∧ Str.len q = rfind s c.
Proof.
  induction s as [|a s IH]; [done|].
  rewrite rfind_cons. pose proof (rfind_range s c).
  destruct (Z.eqb_spec (rfind s c) (-1)) as [E|E].
  - destruct (Ascii.eqb_spec a c) as [->|Hne]; [|done]. intros _.
    exists "", s. split_and!; [done|by apply rfind_absent|done].
  - intros _. destruct (IH E) as (q & post & -> & Hno & Hlen).
    exists (String a q), post. split_and!; [done|done|].
    rewrite len_cons. lia.
Qed.

Lemma sapp_eq_sapp s1 p1 s2 p2 :
  s1 +:+ p1 = s2 +:+ p2 → Str.len s1 ≤ Str.len s2 →
  ∃ m, s2 = s1 +:+ m ∧ p1 = m +:+ p2.
Proof.
  revert s2. induction s1 as [|a s1 IH]; intros s2 Heq Hlen.
  - exists s2. by rewrite !sapp_nil_l in *.
  - destruct s2 as [|b s2].
    { rewrite len_cons in Hlen. pose proof (len_nonneg s1).
      change (Str.len "") with 0 in Hlen. lia. }
    rewrite !sapp_cons in Heq. injection Heq as -> Heq.
    rewrite !len_cons in Hlen.
    destruct (IH s2 Heq) as (m & -> & ->); [lia|]. by exists m.
Qed.
End find_and_rfind.

Section slices.
Implicit Types (s p : string).

Lemma take_chars_all s : take_chars (String.length s) s = s.
Proof. rewrite <-(sapp_nil_r s) at 2. apply take_chars_app. Qed.

Lemma slice_to_app s p : slice_to (s +:+ p) (Str.len s) = s.
Proof.
  unfold slice_to, slice. pose proof (len_nonneg s). pose proof (len_nonneg p).
  rewrite !adjust_inside by (rewrite len_app; lia).
  rewrite Z.sub_0_r. unfold Str.len. rewrite Nat2Z.id.
  change (Z.to_nat 0) with 0%nat.
  replace (drop_chars 0 (s +:+ p)) with (s +:+ p) by (by destruct (s +:+ p)).
  apply take_chars_app.
Qed.

Lemma slice_from_app s p : slice_from (s +:+ p) (Str.len s) = p.
Proof.
  unfold slice_from, slice. pose proof (len_nonneg s). pose proof (len_nonneg p).
  rewrite !adjust_inside by (rewrite len_app; lia).
  rewrite len_app. unfold Str.len. rewrite Nat2Z.id, drop_chars_app.
  replace (Z.to_nat _) with (String.length p) by lia. apply take_chars_all.
Qed.
End slices.

Section command_syntax_facts.
Context (nick : string).

Lemma command_syntax_bracketed rest pre mid post :
  bracketed rest pre mid post →
  command_syntax nick rest
  = Ok (if (strip pre =? "")%string then nick else strip pre,
        Some (strip mid), strip post).
Proof.
  intros (-> & Hopen & Hsp & Hclose). unfold command_syntax.
  pose proof (len_nonneg pre). pose proof (len_nonneg mid).
  rewrite (find_first pre "[") by done.
  assert (rfind (pre +:+ String "[" (mid +:+ String "]" post)) "]"
          = Str.len pre + 1 + Str.len mid) as ->.
  { rewrite <-sapp_cons, <-sapp_assoc, rfind_last by done.
    rewrite len_app, len_cons. lia. }
  assert (find (pre +:+ String "[" (mid +:+ String "]" post)) " " = -1
          ∨ Str.len pre < find (pre +:+ String "[" (mid +:+ String "]" post)) " ")
    as Hspace.
  { rewrite find_app, (proj2 (find_absent pre " ") Hsp), Z.eqb_refl, find_cons.
    pose proof (find_range (mid +:+ String "]" post) " ").
    change (Ascii.eqb "[" " ") with false. cbv iota.
    repeat match goal with
           | |- context [?x =? ?y] => destruct (Z.eqb_spec x y); try lia
           end. }
  assert (negb (Str.len pre =? -1) && negb (Str.len pre + 1 + Str.len mid =? -1)
          && (Str.len pre <? Str.len pre + 1 + Str.len mid)
          && ((find (pre +:+ String "[" (mid +:+ String "]" post)) " " =? -1)
              || (Str.len pre <? find (pre +:+ String "[" (mid +:+ String "]" post)) " "))
          = true) as ->.
  { rewrite !andb_true_iff, orb_true_iff, !negb_true_iff, !Z.eqb_neq,
      Z.eqb_eq, !Z.ltb_lt. lia. }
  replace (Str.len pre + 1 + Str.len mid)
    with (Str.len (pre +:+ String "[" mid)) by (rewrite len_app, len_cons; lia).
  rewrite <-(sapp_cons "[" mid), <-sapp_assoc, slice_to_app.
  rewrite split1_first by done. cbn [fmap list_fmap].
  replace (Str.len (pre +:+ String "[" mid) + 1)
    with (Str.len ((pre +:+ String "[" mid) +:+ "]"))
    by (rewrite !len_app, !len_cons; change (Str.len "") with 0; lia).
  change (String "]" post) with ("]" +:+ post).
  by rewrite <-(sapp_assoc _ "]" post), slice_from_app.
Qed.

Lemma command_syntax_bracket_found rest :
  let start := find rest "[" in
  let finish := rfind rest "]" in
  let sp := find rest " " in
  start ≠ -1 → finish ≠ -1 → start < finish → sp = -1 ∨ start < sp →
  ∃ pre mid post, bracketed rest pre mid post.
Proof.
  intros start finish sp Hstart Hfinish Hlt Hsp.
  destruct (find_split rest "[" Hstart) as (pre & p & Hrest & Hopen & Hpre).
  destruct (rfind_split rest "]" Hfinish) as (q & post & Hrest' & Hclose & Hq).
  fold start in Hpre. fold finish in Hq.
  destruct (sapp_eq_sapp pre (String "[" p) q (String "]" post)) as (m & -> & Hp);
    [congruence|lia|].
  destruct m as [|b mid].
  { rewrite sapp_nil_r in Hq. lia. }
  rewrite sapp_cons in Hp. injection Hp as <- ->.
  exists pre, mid, post. split_and!; [done|done| |done].
  intros Hin. subst sp.
  rewrite Hrest, find_app in Hsp.
  pose proof (find_range pre " ").
  destruct (Z.eqb_spec (find pre " ") (-1)) as [E|E]; [by apply find_absent in E|].
  lia.
Qed.

(** Claim C6. When the first opening bracket of the remainder comes
    before its last closing bracket and no blank comes before that opening
    bracket, the text before the bracket, stripped, is the topic (the
    default topic when it is empty), the text between the first opening
    and the last closing bracket, stripped, is the index expression, and
    the text after the last closing bracket, stripped, is the payload. In
    every other case the topic is the default topic, there is no index
    expression, and the payload is the stripped remainder. *)
Theorem command_syntax_spec rest :
  (∀ pre mid post, bracketed rest pre mid post →
     command_syntax nick rest
     = Ok (if (strip pre =? "")%string then nick else strip pre,
           Some (strip mid), strip post))
  ∧ ((¬ ∃ pre mid post, bracketed rest pre mid post) →
     command_syntax nick rest = Ok (nick, None, strip rest)).
Proof.
  split; [apply command_syntax_bracketed|].
  intros Hnone. unfold command_syntax.
  destruct (negb (find rest "[" =? -1) && negb (rfind rest "]" =? -1)
            && (find rest "[" <? rfind rest "]")
            && ((find rest " " =? -1) || (find rest "[" <? find rest " ")))
    eqn:Hcond; [|done].
  destruct Hnone. apply command_syntax_bracket_found;
    rewrite !andb_true_iff, orb_true_iff, !negb_true_iff, !Z.eqb_neq,
      Z.eqb_eq, !Z.ltb_lt in Hcond; tauto.
Qed.
End command_syntax_facts.

(** ** [show] and [shuffle] *)

Section select_facts.
Implicit Types (items : list string) (i : Z).

Lemma at_position_Some items i x :
  at_position items i = Some x ↔ 0 ≤ i ∧ items !! Z.to_nat i = Some x.
Proof. unfold at_position. case_decide; [tauto|]. split; [done|]. tauto. Qed.

Lemma at_position_None items i :
  at_position items i = None ↔ i < 0 ∨ len items ≤ i.
Proof.
  unfold at_position, len. case_decide.
  - rewrite lookup_ge_None. lia.
  - split; [lia|done].
Qed.

Lemma getitem_in_range items i :
  0 ≤ i < len items →
  ∃ x, getitem items i = Ok x ∧ at_position items i = Some x.
Proof.
  unfold len. intros Hi. unfold getitem, at_position. cbv zeta.
  assert ((i <? 0) = false) as Hneg by (apply Z.ltb_ge; lia).
  rewrite !Hneg, (proj2 (Z.leb_gt _ _)) by lia. cbn [orb].
  destruct (lookup_lt_is_Some_2 items (Z.to_nat i)) as [x Hx]; [lia|].
  exists x. rewrite Hx. split; [done|]. case_decide; [done|lia].
Qed.

Lemma select_spec indices items :
  select indices items = Ok (chosen indices items).
Proof.
  unfold select, chosen. induction indices as [|i indices IH]; [done|].
  cbn [omap list_omap].
  destruct (decide (i < len items ∧ 0 ≤ i)) as [Hi|Hi].
  - rewrite filter_cons_True by done.
    destruct (getitem_in_range items i) as (x & Hget & ->); [lia|].
    cbn [mapM]. rewrite Hget. cbn. rewrite IH. done.
  - rewrite filter_cons_False by done.
    by rewrite (proj2 (at_position_None items i)) by lia.
Qed.
End select_facts.

Section join_facts.
Lemma join_cons_ne sep x l : x ≠ "" → join sep (x :: l) ≠ "".
Proof.
  intros Hx. unfold join. cbn [String.concat].
  destruct l; [done|]. by destruct x.
Qed.

Lemma or_else_join sep (l : list string) d :
  Forall (fun x => x ≠ "") l →
  or_else (join sep l) d = match l with [] => d | _ => join sep l end.
Proof.
  intros Hl. unfold or_else. destruct Hl as [|x l Hx Hl]; [done|].
  by destruct (String.eqb_spec (join sep (x :: l)) "") as [E%join_cons_ne|].
Qed.

Lemma numbered_nonempty e : numbered e ≠ "".
Proof. unfold numbered. by destruct (pretty e.1). Qed.

End join_facts.

Lemma bind_Ok {A B : Type} (a : A) (f : A → result B) : (Ok a ≫= f) = f a.
Proof. reflexivity. Qed.

Section show_and_shuffle.
Context (re_search : string → string → result bool).
Context (random_shuffle : list string → list string).

Lemma chosen_items indices items :
  (chosen indices items).*2 = omap (at_position items) indices.
Proof.
  unfold chosen. rewrite list_fmap_omap. apply list_omap_ext, Forall2_same_length_lookup.
  split; [done|]. intros k i j Hi Hj. assert (i = j) as -> by congruence.
  by destruct (at_position items j).
Qed.

Lemma chosen_lines indices items :
  (fun e : Z * string => numbered (e.1 + 1, e.2)) <$> chosen indices items
  = omap (show_line items) indices.
Proof.
  unfold chosen. rewrite list_fmap_omap. apply list_omap_ext, Forall2_same_length_lookup.
  split; [done|]. intros k i j Hi Hj. assert (i = j) as -> by congruence.
  unfold show_line. by destruct (at_position items j).
Qed.

Lemma or_else_joined sep entries none :
  Forall (fun x => x ≠ "") entries →
  or_else (join sep entries) none = joined_or none sep entries.
Proof. apply or_else_join. Qed.

(** Claim C3. [shuffle] with indices: the new list, which is saved, has
    for each index in the given order the item now at that position when
    [0 <= position < length]; other positions are passed over, items not
    referred to are dropped, and an index given twice gives the item
    twice. On the stack a, b, c the index [[3,1]] gives the list shown as
    [1: c | 2: a]. *)
Theorem shuffle_by_index topic new_item indices store :
  indices ≠ [] →
  let items := get_items store topic in
  let shuffled := omap (at_position items) indices in
  perform random_shuffle "shuffle" topic new_item indices store
  = (Returned (Some (joined_or "(empty)" " | "
                       (numbered <$> enumerate shuffled 1))),
     save_items store topic shuffled)
  ∧ stack re_search random_shuffle "n" "shuffle [3,1]" abc
    = (Returned (Some "1: c | 2: a"), save_items abc "n" ["c"; "a"]).
Proof.
  intros Hne items shuffled. split; [|reflexivity].
  unfold perform. cbn [String.eqb Ascii.eqb Bool.eqb].
  unfold shuffle_items. destruct indices as [|i indices]; [done|].
  rewrite select_spec, bind_Ok, chosen_items. fold items. fold shuffled.
  rewrite or_else_joined; [done|].
  apply Forall_fmap, Forall_forall. intros e _. apply numbered_nonempty.
Qed.

(** Claim C8. [show] without indices takes all positions [0 .. length-1]
    in ascending order; each position with an item is shown, in the given
    order and as often as given, as the 1-based position, a colon and the
    item; the lines are joined by [" | "], or by a line feed when the
    payload is a non-empty prefix of the word multiline; any other
    non-empty payload gives the usage text; no line at all gives
    [(empty)]; the store is left as it was. *)
Theorem show_renders topic new_item indices store :
  let items := get_items store topic in
  let positions :=
    match indices with [] => seqZ 0 (len items) | _ => indices end in
  let lines := omap (show_line items) positions in
  (new_item = "" →
     perform random_shuffle "show" topic new_item indices store
     = (Returned (Some (joined_or "(empty)" " | " lines)), store))
  ∧ (new_item ≠ "" → (∃ rest, "multiline" = new_item +:+ rest) →
     perform random_shuffle "show" topic new_item indices store
     = (Returned (Some (joined_or "(empty)" (String newline "") lines)), store))
  ∧ (new_item ≠ "" → (¬ ∃ rest, "multiline" = new_item +:+ rest) →
     perform random_shuffle "show" topic new_item indices store
     = (Returned (Some Help.show), store)).
Proof.
  intros items positions lines.
  assert (∀ sep, (chosen_ ← select positions items;
                  Ok (or_else (join sep ((fun e : Z * string =>
                        numbered (e.1 + 1, e.2)) <$> chosen_)) "(empty)"))
                 = Ok (joined_or "(empty)" sep lines)) as Hrender.
  { intros sep. rewrite select_spec, bind_Ok, chosen_lines.
    rewrite or_else_joined; [done|].
    apply Forall_forall. intros x (i & _ & Hx)%list_elem_of_omap.
    unfold show_line in Hx. destruct (at_position items i); [|done].
    injection Hx as <-. by destruct (pretty (i + 1)). }
  unfold perform. cbn [String.eqb Ascii.eqb Bool.eqb]. fold items.
  unfold show_items, startswith. change (range 0 (len items)) with (seqZ 0 (len items - 0)).
  rewrite Z.sub_0_r. fold positions.
  split_and!.
  - intros ->. cbn [String.eqb]. by rewrite Hrender.
  - intros Hne Hpre%prefix_spec.
    destruct (String.eqb_spec new_item "") as [|_]; [done|].
    by rewrite Hpre, Hrender.
  - intros Hne Hpre.
    destruct (String.eqb_spec new_item "") as [|_]; [done|].
    destruct (String.prefix new_item "multiline") eqn:E; [|done].
    by apply prefix_spec in E.
Qed.

(** An index expression that matches no item gives no index, and [show]
    then takes all positions. *)
Lemma show_without_match :
  stack re_search random_shuffle "n" "show ['z']" abc
  = (Returned (Some "1: a | 2: b | 3: c"), abc).
Proof. reflexivity. Qed.
End show_and_shuffle.

(** ** [pop] *)

Section enumerate_facts.
Context {A : Type}.
Implicit Types (l : list A) (lo : Z).

Lemma enumerate_app l1 l2 lo :
  enumerate (l1 ++ l2) lo = enumerate l1 lo ++ enumerate l2 (lo + len l1).
Proof.
  revert lo. induction l1 as [|x l1 IH]; intros lo.
  - cbn. by rewrite Z.add_0_r.
  - cbn [enumerate app]. rewrite IH. unfold len. cbn [length].
    do 3 f_equal. lia.
Qed.

Lemma enumerate_fst l lo : (enumerate l lo).*1 = seqZ lo (len l).
Proof.
  revert lo. induction l as [|x l IH]; intros lo; [done|].
  cbn [enumerate fmap list_fmap]. rewrite IH. unfold len. cbn [length].
  rewrite (seqZ_cons lo) by lia. cbn. do 2 f_equal; lia.
Qed.

Lemma enumerate_snd l lo : (enumerate l lo).*2 = l.
Proof.
  revert lo. induction l as [|x l IH]; intros lo; [done|].
  cbn [enumerate fmap list_fmap]. by rewrite IH.
Qed.

Lemma filter_enumerate_ext (P Q : Z * A → Prop)
  `{!∀ e, Decision (P e), !∀ e, Decision (Q e)} l lo :
  (∀ k x, lo ≤ k < lo + len l → (P (k, x) ↔ Q (k, x))) →
  filter P (enumerate l lo) = filter Q (enumerate l lo).
Proof.
  revert lo. induction l as [|x l IH]; intros lo HPQ; [done|].
  cbn [enumerate]. unfold len in *. cbn [length] in HPQ.
  rewrite !filter_cons.
  rewrite IH by (intros k y Hk; apply HPQ; lia).
  destruct (decide (P (lo, x))) as [HP|HP], (decide (Q (lo, x))) as [HQ|HQ];
    try done; destruct (HPQ lo x); [lia|tauto|lia|tauto].
Qed.

Lemma filter_enumerate_none (P : Z * A → Prop) `{!∀ e, Decision (P e)} l lo :
  (∀ k x, lo ≤ k < lo + len l → ¬ P (k, x)) →
  filter P (enumerate l lo) = [].
Proof.
  intros HP. rewrite (filter_enumerate_ext P (fun _ => False)).
  - induction (enumerate l lo) as [|e es IH]; [done|].
    rewrite filter_cons_False; [exact IH|]. by intros [].
  - intros k x Hk. split; [by apply HP|done].
Qed.

Lemma filter_enumerate_all (P : Z * A → Prop) `{!∀ e, Decision (P e)} l lo :
  (∀ k x, lo ≤ k < lo + len l → P (k, x)) →
  filter P (enumerate l lo) = enumerate l lo.
Proof.
  intros HP. rewrite (filter_enumerate_ext P (fun _ => True)).
  - induction (enumerate l lo) as [|e es IH]; [done|].
    rewrite filter_cons_True; [by rewrite IH|done].
  - intros k x Hk. split; [done|]. intros _. by apply HP.
Qed.
End enumerate_facts.

Section sorted_set_facts.
Implicit Types (l : list Z).

Lemma sorted_set_elem l k : k ∈ sorted_set l ↔ k ∈ l.
Proof.
  unfold sorted_set. rewrite merge_sort_Permutation. apply elem_of_remove_dups.
Qed.

Lemma sorted_set_NoDup l : NoDup (sorted_set l).
Proof.
  unfold sorted_set. rewrite merge_sort_Permutation. apply NoDup_remove_dups.
Qed.

Lemma strictly_sorted l : StronglySorted Z.le l → NoDup l → StronglySorted Z.lt l.
Proof.
  induction 1 as [|x l Hl IH Hx]; intros Hnd; [constructor|].
  apply NoDup_cons in Hnd as [Hin Hnd]. constructor; [by apply IH|].
  rewrite Forall_forall in Hx |- *. intros y Hy.
  assert (x ≠ y) by (by intros ->). specialize (Hx y Hy). lia.
Qed.

Lemma sorted_set_sorted l : StronglySorted Z.lt (sorted_set l).
Proof.
  apply strictly_sorted; [|apply sorted_set_NoDup].
  unfold sorted_set. apply StronglySorted_merge_sort; apply _.
Qed.

Lemma sorted_snoc l i :
  StronglySorted Z.lt (l ++ [i]) →
  StronglySorted Z.lt l ∧ ∀ j, j ∈ l → j < i.
Proof.
  intros H. split; [by apply StronglySorted_app_1_l in H|].
  intros j Hj. eapply StronglySorted_app_1_elem_of; [done..|]. by apply list_elem_of_singleton.
Qed.
End sorted_set_facts.

Section pop_loop_facts.
Implicit Types (items : list string) (i : Z).

Lemma pop_in_range items i :
  0 ≤ i < len items →
  ∃ pre x suf, items = pre ++ x :: suf ∧ len pre = i
             ∧ pop items i = Ok (x, pre ++ suf).
Proof.
  intros Hi. destruct (getitem_in_range items i Hi) as (x & Hget & Hat).
  apply at_position_Some in Hat as [_ Hx].
  apply list_elem_of_split_length in Hx as (pre & suf & -> & Hlen).
  exists pre, x, suf. split_and!; [done|unfold len; lia|].
  unfold pop. rewrite Hget, bind_Ok.
  assert ((i <? 0) = false) as -> by (apply Z.ltb_ge; lia).
  do 2 f_equal. rewrite Hlen. by rewrite delete_middle.
Qed.

Lemma items_at_nil items : items_at [] items = [].
Proof.
  unfold items_at. rewrite filter_enumerate_none; [done|].
  intros k x _. apply not_elem_of_nil.
Qed.

Lemma items_except_nil items : items_except [] items = items.
Proof.
  unfold items_except. rewrite filter_enumerate_all, enumerate_snd; [done|].
  intros k x _. apply not_elem_of_nil.
Qed.

Lemma items_at_same l1 l2 items :
  (∀ k, 0 ≤ k < len items → (k ∈ l1 ↔ k ∈ l2)) →
  items_at l1 items = items_at l2 items
  ∧ items_except l1 items = items_except l2 items.
Proof.
  intros Hl. unfold items_at, items_except.
  rewrite (filter_enumerate_ext _ (fun e => e.1 ∈ l2))
    by (intros k x Hk; cbn [fst]; apply Hl; lia).
  rewrite (filter_enumerate_ext (fun e => e.1 ∉ l1) (fun e => e.1 ∉ l2)); [done|].
  intros k x Hk. cbn [fst]. rewrite Hl by lia. done.
Qed.

(** Removing the largest requested position first leaves the smaller
    ones where they were. *)
Lemma items_at_largest l i pre x suf :
  (∀ j, j ∈ l → j < i) → len pre = i →
  items_at (l ++ [i]) (pre ++ x :: suf) = items_at l (pre ++ suf) ++ [x]
  ∧ items_except (l ++ [i]) (pre ++ x :: suf) = items_except l (pre ++ suf).
Proof.
  intros Hl Hpre. unfold items_at, items_except.
  rewrite !enumerate_app. cbn [enumerate]. rewrite !Z.add_0_l, Hpre.
  rewrite !filter_app, !filter_cons. cbn [fst].
  rewrite (filter_enumerate_ext (fun e => e.1 ∈ l ++ [i]) (fun e => e.1 ∈ l) pre 0).
  2:{ intros k y Hk. cbn [fst]. rewrite elem_of_app, list_elem_of_singleton.
      split; [intros [?|?]; [done|lia]|by left]. }
  rewrite (filter_enumerate_ext (fun e => e.1 ∉ l ++ [i]) (fun e => e.1 ∉ l) pre 0).
  2:{ intros k y Hk. cbn [fst]. rewrite elem_of_app, list_elem_of_singleton.
      split; [tauto|]. intros ? [?|?]; [done|lia]. }
  rewrite (filter_enumerate_none (fun e => e.1 ∈ l ++ [i]) suf).
  2:{ intros k y Hk. cbn [fst]. rewrite elem_of_app, list_elem_of_singleton.
      intros [?%Hl|?]; lia. }
  rewrite (filter_enumerate_none (fun e => e.1 ∈ l) suf i).
  2:{ intros k y Hk. cbn [fst]. intros ?%Hl. lia. }
  rewrite (filter_enumerate_all (fun e => e.1 ∉ l ++ [i]) suf).
  2:{ intros k y Hk. cbn [fst]. rewrite elem_of_app, list_elem_of_singleton.
      intros [?%Hl|?]; lia. }
  rewrite (filter_enumerate_all (fun e => e.1 ∉ l) suf i).
  2:{ intros k y Hk. cbn [fst]. intros ?%Hl. lia. }
  destruct (decide (i ∈ l ++ [i])) as [_|Hn].
  2:{ destruct Hn. apply elem_of_app. right. by apply list_elem_of_singleton. }
  destruct (decide (i ∉ l ++ [i])) as [Hn|_].
  { destruct Hn. apply elem_of_app. right. by apply list_elem_of_singleton. }
  by rewrite !fmap_app, !enumerate_snd, !app_nil_r.
Qed.

Lemma items_at_outside l i items :
  i < 0 ∨ len items ≤ i →
  items_at (l ++ [i]) items = items_at l items
  ∧ items_except (l ++ [i]) items = items_except l items.
Proof.
  intros Hi. apply items_at_same. intros k Hk.
  rewrite elem_of_app, list_elem_of_singleton.
  split; [intros [?|?]; [done|lia]|by left].
Qed.

Lemma pop_loop_spec l items :
  StronglySorted Z.lt l →
  pop_loop (reversed l) items = Ok (reverse (items_at l items), items_except l items).
Proof.
  unfold reversed. revert items. induction l as [|i l IH] using rev_ind; intros items Hl.
  - by rewrite items_at_nil, items_except_nil.
  - apply sorted_snoc in Hl as [Hl Hlt]. rewrite reverse_snoc. cbn [pop_loop].
    destruct (Z.ltb_spec i (len items)) as [Hhi|Hhi];
      [destruct (Z.leb_spec 0 i) as [Hlo|Hlo]|]; cbn [andb].
    + destruct (pop_in_range items i) as (pre & x & suf & -> & Hpre & ->); [lia|].
      rewrite bind_Ok. cbv beta iota. rewrite IH, bind_Ok by done. cbv beta iota.
      destruct (items_at_largest l i pre x suf Hlt Hpre) as [-> ->].
      by rewrite reverse_snoc.
    + rewrite IH by done.
      by destruct (items_at_outside l i items) as [-> ->]; [lia|].
    + rewrite IH by done.
      by destruct (items_at_outside l i items) as [-> ->]; [lia|].
Qed.

Lemma pop_items_spec indices items :
  let requested := match indices with [] => [0] | _ => indices end in
  pop_items indices items
  = Ok (reverse (items_at requested items), items_except requested items).
Proof.
  intros requested. unfold pop_items. fold requested.
  rewrite pop_loop_spec by apply sorted_set_sorted.
  by destruct (items_at_same (sorted_set requested) requested items) as [-> ->];
    [intros; apply sorted_set_elem|].
Qed.
End pop_loop_facts.

Section pop_counts.
Implicit Types (items : list string) (positions : list Z).



End pop_counts.

Section pop_theorem.
Context (random_shuffle : list string → list string).

End pop_theorem.

(** ** [add] *)

Section add_facts.
Context {A : Type}.
Implicit Types (items l : list A) (x : A) (i p : Z).

Lemma reversed_descending (l : list Z) :
  StronglySorted Z.lt l → StronglySorted Z.gt (reversed l).
Proof.
  unfold reversed. induction 1 as [|x l Hl IH Hx]; [constructor|].
  rewrite reverse_cons. apply StronglySorted_app_2; [|done|repeat constructor].
  intros y z Hy Hz. rewrite elem_of_reverse in Hy.
  apply list_elem_of_singleton in Hz as ->.
  rewrite Forall_forall in Hx. specialize (Hx y Hy). lia.
Qed.

Lemma ssize_t_range : ssize_t_min < 0 < ssize_t_max.
Proof. unfold ssize_t_min, ssize_t_max. lia. Qed.

Lemma insert_in_range l p x :
  ssize_t_min ≤ p ≤ ssize_t_max →
  insert l p x
  = let n := len l in
    let q := if p <? 0 then (if p + n <? 0 then 0 else p + n) else p in
    let q := if n <? q then n else q in
    Ok (take (Z.to_nat q) l ++ x :: drop (Z.to_nat q) l).
Proof.
  intros Hp. unfold insert.
  assert ((p <? ssize_t_min) = false) as -> by lia.
  by assert ((ssize_t_max <? p) = false) as -> by lia.
Qed.

Lemma insert_overflow l p x :
  p < ssize_t_min ∨ ssize_t_max < p → insert l p x = Raise OverflowError.
Proof.
  intros Hp. unfold insert.
  destruct (Z.ltb_spec p ssize_t_min); [done|].
  destruct (Z.ltb_spec ssize_t_max p); [done|lia].
Qed.

Lemma insert_inside l p x :
  0 ≤ p ≤ len l → p ≤ ssize_t_max →
  insert l p x = Ok (take (Z.to_nat p) l ++ x :: drop (Z.to_nat p) l).
Proof.
  pose proof ssize_t_range. intros Hp Hmax.
  rewrite insert_in_range by lia. cbv zeta.
  assert ((p <? 0) = false) as -> by lia.
  by assert ((len l <? p) = false) as -> by lia.
Qed.

Lemma insert_front l p x :
  ssize_t_min ≤ p → p ≤ - len l → insert l p x = Ok (x :: l).
Proof.
  pose proof ssize_t_range. unfold len. intros Hmin Hp.
  rewrite insert_in_range by lia. cbv zeta. unfold len.
  destruct (Z.ltb_spec p 0).
  - destruct (Z.ltb_spec (p + Z.of_nat (length l)) 0).
    + by assert ((Z.of_nat (length l) <? 0) = false) as -> by lia.
    + assert (p + Z.of_nat (length l) = 0) as -> by lia.
      by assert ((Z.of_nat (length l) <? 0) = false) as -> by lia.
  - assert (p = 0) as -> by lia. destruct l; [|cbn [length] in Hp; lia].
    done.
Qed.

Lemma insert_Ok l p x l' :
  insert l p x = Ok l' → ∃ l1 l2, l = l1 ++ l2 ∧ l' = l1 ++ x :: l2.
Proof.
  unfold insert. destruct (_ || _); [done|]. cbv zeta. intros [= <-].
  eexists _, _. by rewrite take_drop.
Qed.

Lemma insert_Raise l p x e :
  insert l p x = Raise e →
  e = OverflowError ∧ (p < ssize_t_min ∨ ssize_t_max < p).
Proof.
  unfold insert. destruct (Z.ltb_spec p ssize_t_min).
  { intros [= <-]. auto. }
  destruct (Z.ltb_spec ssize_t_max p); [|done]. intros [= <-]. auto.
Qed.

Lemma insert_fmap {B : Type} (f : A → B) l p x :
  insert (f <$> l) p (f x) = fmap (M:=result) (fmap (M:=list) f) (insert l p x).
Proof.
  unfold insert. destruct (_ || _); [done|]. cbv zeta.
  rewrite length_fmap. cbn [fmap result_fmap]. f_equal.
  by rewrite fmap_app, fmap_cons, fmap_take, fmap_drop.
Qed.

(** What one round of the loop does to the list. *)
Lemma add_step_Ok x l i l' :
  add_step x l i = Ok l' → ∃ l1 l2, l = l1 ++ l2 ∧ l' = l1 ++ x :: l2.
Proof.
  unfold add_step. destruct (_ <=? _); [|apply insert_Ok].
  intros [= <-]. exists l, []. by rewrite app_nil_r.
Qed.

Lemma add_step_Raise x l i e :
  add_step x l i = Raise e →
  e = OverflowError ∧ (i + 1 < ssize_t_min ∨ ssize_t_max < len l).
Proof.
  unfold add_step. destruct (Z.leb_spec (len l) i); [done|].
  intros [-> Hp]%insert_Raise. split; [done|]. lia.
Qed.

Lemma add_step_low x l i :
  i + 1 < ssize_t_min → add_step x l i = Raise OverflowError.
Proof.
  pose proof ssize_t_range. intros Hi. unfold add_step, len.
  destruct (Z.leb_spec (Z.of_nat (length l)) i); [lia|].
  apply insert_overflow. by left.
Qed.

Lemma add_step_fmap {B : Type} (f : A → B) x l i :
  add_step (f x) (f <$> l) i = fmap (M:=result) (fmap (M:=list) f) (add_step x l i).
Proof.
  unfold add_step, len. rewrite length_fmap.
  destruct (_ <=? _); [|apply insert_fmap].
  unfold append. cbn [fmap result_fmap]. by rewrite fmap_app.
Qed.

Lemma add_loop_fmap {B : Type} (f : A → B) x l order :
  add_loop (f x) (f <$> l) order = fmap (M:=result) (fmap (M:=list) f) (add_loop x l order).
Proof.
  revert l. induction order as [|i order IH]; intros l; [done|].
  cbn [add_loop]. rewrite add_step_fmap.
  destruct (add_step x l i) as [l'|e]; [|done].
  cbn [fmap result_fmap]. rewrite !bind_Ok. apply IH.
Qed.

Lemma add_items_fmap {B : Type} (f : A → B) indices x l :
  add_items indices (f x) (f <$> l) = fmap (M:=result) (fmap (M:=list) f) (add_items indices x l).
Proof.
  unfold add_items. destruct indices; [apply insert_fmap|apply add_loop_fmap].
Qed.

Lemma add_loop_Ok x l order l' :
  add_loop x l order = Ok l' →
  l `sublist_of` l' ∧ l' ≡ₚ replicate (length order) x ++ l.
Proof.
  revert l. induction order as [|i order IH]; intros l.
  { intros [= <-]. done. }
  cbn [add_loop]. destruct (add_step x l i) as [l1|e] eqn:Hstep; [|done].
  rewrite bind_Ok. intros [Hsub Hperm]%IH.
  apply add_step_Ok in Hstep as (l2 & l3 & -> & ->). split.
  - etrans; [|exact Hsub]. apply sublist_app; [done|]. by apply sublist_cons.
  - rewrite Hperm. cbn [length replicate].
    rewrite <-Permutation_middle. cbn. by rewrite <-!Permutation_middle.
Qed.

Lemma add_loop_Raise x l order e :
  add_loop x l order = Raise e → e = OverflowError.
Proof.
  revert l. induction order as [|i order IH]; intros l; [done|].
  cbn [add_loop]. destruct (add_step x l i) as [l1|e'] eqn:Hstep.
  - rewrite bind_Ok. apply IH.
  - intros [= <-]. by apply add_step_Raise in Hstep as [-> _].
Qed.

Lemma add_loop_low x l order i :
  i ∈ order → i + 1 < ssize_t_min → add_loop x l order = Raise OverflowError.
Proof.
  intros Hin Hi. revert l.
  induction order as [|k order IH]; intros l; [by apply elem_of_nil in Hin|].
  cbn [add_loop]. destruct (add_step x l k) as [l1|e] eqn:Hstep.
  - rewrite bind_Ok. apply elem_of_cons in Hin as [->|Hin]; [|by apply IH].
    by rewrite add_step_low in Hstep.
  - by apply add_step_Raise in Hstep as [-> _].
Qed.

(** The loop runs to its end when no position is below the range of
    [Py_ssize_t] and the list it builds stays inside it. *)
Lemma add_loop_runs x l order :
  Forall (fun i => ssize_t_min ≤ i + 1) order →
  len l + len order ≤ ssize_t_max →
  ∃ l', add_loop x l order = Ok l' ∧ len l' = len l + len order.
Proof.
  intros Horder. revert l.
  induction Horder as [|i order Hi _ IH]; intros l Hlen.
  { exists l. unfold len. cbn. split; [done|lia]. }
  unfold len in Hlen. cbn [length] in Hlen.
  destruct (add_step x l i) as [l1|e] eqn:Hstep.
  - pose proof Hstep as (l2 & l3 & -> & ->)%add_step_Ok.
    destruct (IH (l2 ++ x :: l3)) as (l' & Hl' & Hlen').
    { unfold len. rewrite !length_app in *. cbn [length]. lia. }
    exists l'. cbn [add_loop]. rewrite Hstep, bind_Ok. split; [done|].
    rewrite Hlen'. unfold len. rewrite !length_app. cbn [length]. lia.
  - apply add_step_Raise in Hstep as [_ Hwhy]. unfold len in Hwhy. lia.
Qed.

Lemma sorted_set_length (indices : list Z) :
  length (reversed (sorted_set indices)) = length (remove_dups indices).
Proof.
  unfold reversed, sorted_set. by rewrite length_reverse, merge_sort_Permutation.
Qed.

Lemma reversed_sorted_elem (indices : list Z) i :
  i ∈ reversed (sorted_set indices) ↔ i ∈ indices.
Proof. unfold reversed. by rewrite elem_of_reverse, sorted_set_elem. Qed.

Lemma add_items_Ok indices x l l' :
  add_items indices x l = Ok l' →
  l `sublist_of` l' ∧ l' ≡ₚ replicate (inserted_count indices) x ++ l.
Proof.
  unfold add_items, inserted_count. destruct indices as [|i indices].
  - intros (l1 & l2 & -> & ->)%insert_Ok. split.
    + apply sublist_app; [done|]. by apply sublist_cons.
    + cbn. by rewrite Permutation_middle.
  - intros H%add_loop_Ok. by rewrite sorted_set_length in H.
Qed.

Lemma add_items_Raise indices x l e :
  add_items indices x l = Raise e → e = OverflowError.
Proof.
  unfold add_items. destruct indices as [|i indices].
  - by intros [-> _]%insert_Raise.
  - apply add_loop_Raise.
Qed.

Lemma add_items_low indices x l i :
  i ∈ indices → i + 1 < ssize_t_min →
  add_items indices x l = Raise OverflowError.
Proof.
  intros Hin Hi. unfold add_items.
  destruct indices as [|k indices]; [by apply elem_of_nil in Hin|].
  apply (add_loop_low x l _ i); [by apply reversed_sorted_elem|done].
Qed.

Lemma add_items_runs indices x l :
  Forall (fun i => ssize_t_min ≤ i + 1) indices →
  len l + Z.of_nat (inserted_count indices) ≤ ssize_t_max →
  ∃ l', add_items indices x l = Ok l'
        ∧ len l' = len l + Z.of_nat (inserted_count indices).
Proof.
  pose proof ssize_t_range. intros Hindices Hlen.
  unfold add_items, inserted_count in *. destruct indices as [|i indices].
  - rewrite insert_inside by (unfold len in *; lia).
    eexists. split; [done|]. unfold len. rewrite length_app. cbn [length].
    rewrite length_take, length_drop. lia.
  - destruct (add_loop_runs x l (reversed (sorted_set (i :: indices))))
      as (l' & Hl' & Hlen').
    + apply Forall_forall. intros k Hk. apply (proj1 (reversed_sorted_elem _ _)) in Hk.
      by apply (proj1 (Forall_forall _ _) Hindices).
    + unfold len at 2. by rewrite sorted_set_length.
    + exists l'. split; [done|]. rewrite Hlen'. unfold len at 2.
      by rewrite sorted_set_length.
Qed.
End add_facts.

Section add_steps.
Implicit Types (items l : list string) (x : string) (i : Z).

(** One round of the loop against the step the specification
    describes. *)
Lemma add_step_spec x l i :
  len l ≤ ssize_t_max →
  add_step x l i
  = if decide (-1 ≤ i ∨ ssize_t_min ≤ i + 1 ≤ - len l)
    then Ok (add_at x l i)
    else if decide (ssize_t_min ≤ i + 1)
         then Ok (insert_before_last x l (- (i + 1)))
         else Raise OverflowError.
Proof.
  pose proof ssize_t_range. intros Hlen. unfold add_step, add_at, insert_after.
  assert (0 ≤ len l) by (unfold len; lia).
  destruct (Z.leb_spec (len l) i).
  { rewrite decide_True by lia. by rewrite decide_True by done. }
  destruct (decide (-1 ≤ i)) as [Hi|Hi].
  { rewrite decide_True by lia. rewrite decide_False by lia.
    apply insert_inside; lia. }
  destruct (decide (ssize_t_min ≤ i + 1)) as [Hmin|Hmin].
  - destruct (decide (i + 1 ≤ - len l)) as [Hfar|Hfar].
    + rewrite decide_True by lia. rewrite decide_False by lia.
      rewrite insert_front by lia.
      by replace (Z.to_nat (i + 1)) with 0%nat by lia.
    + rewrite decide_False by lia.
      rewrite insert_in_range by lia. cbv zeta. unfold len in *.
      assert ((i + 1 <? 0) = true) as -> by lia.
      assert ((i + 1 + Z.of_nat (length l) <? 0) = false) as -> by lia.
      assert ((Z.of_nat (length l) <? i + 1 + Z.of_nat (length l)) = false)
        as -> by lia.
      unfold insert_before_last.
      by replace (Z.to_nat (i + 1 + Z.of_nat (length l)))
        with (length l - Z.to_nat (- (i + 1)))%nat by lia.
  - rewrite decide_False by lia. apply insert_overflow. lia.
Qed.

Lemma add_at_length x l i : len (add_at x l i) = len l + 1.
Proof.
  unfold add_at, insert_after, len. case_decide.
  - rewrite length_app. cbn. lia.
  - rewrite length_app. cbn [length]. rewrite length_take, length_drop. lia.
Qed.

(** The loop does what the specification describes when every index is
    -1 or more, or so far below that its position falls before the list
    at its longest, [bound] items. *)
Lemma add_loop_spec x l order bound :
  Forall (fun i => -1 ≤ i ∨ ssize_t_min ≤ i + 1 ≤ - bound) order →
  len l + len order - 1 ≤ bound →
  len l + len order ≤ ssize_t_max →
  add_loop x l order = Ok (foldl (add_at x) l order).
Proof.
  intros Horder. revert l.
  induction Horder as [|i order Hi _ IH]; intros l Hbound Hlen; [done|].
  unfold len in Hbound, Hlen. cbn [length] in Hbound, Hlen.
  cbn [add_loop foldl]. rewrite add_step_spec by (unfold len; lia).
  rewrite decide_True by (unfold len; lia). rewrite bind_Ok.
  apply IH; rewrite add_at_length; unfold len; lia.
Qed.
End add_steps.

Section add_theorem.
Context (random_shuffle : list string → list string).

(** Claim C1, which the code misses below the index -1. [add] with a
    payload that is not empty: without indices the payload goes to the
    front; otherwise the loop runs over the distinct indices in descending
    order and what it returns is saved. Its round for one index does what
    the claim says, [add_at], for an index from -1 up, and for an index so
    far below that the position falls before the whole list. For an index
    between, the round hands [list.insert] a negative position, which
    counts from the end: the payload lands before the last [-(i + 1)]
    items and not at the front; lines 305-308 test the index against the
    length only, where [pop], [show] and [shuffle] also test it against 0.
    A position below the range of [Py_ssize_t] raises [OverflowError] and
    nothing is saved. When every index is -1 or more, or so far below that
    its position falls before the list at its longest, the saved list is
    the one the claim describes. *)
Theorem add_inserts topic new_item indices store :
  new_item ≠ "" →
  let items := get_items store topic in
  let outcome := perform random_shuffle "add" topic new_item indices store in
  ∃ order,
    StronglySorted Z.gt order
    ∧ (∀ i, i ∈ order ↔ i ∈ indices)
    ∧ outcome
      = match match indices with
              | [] => Ok (new_item :: items)
              | _ => add_loop new_item items order
              end with
        | Ok items' => (Returned None, save_items store topic items')
        | Raise e => (Uncaught e, store)
        end
    ∧ (∀ l i, len l ≤ ssize_t_max →
         add_step new_item l i
         = if decide (-1 ≤ i ∨ ssize_t_min ≤ i + 1 ≤ - len l)
           then Ok (add_at new_item l i)
           else if decide (ssize_t_min ≤ i + 1)
                then Ok (insert_before_last new_item l (- (i + 1)))
                else Raise OverflowError)
    ∧ (Forall (fun i => -1 ≤ i ∨ ssize_t_min ≤ i + 1
                       ≤ - (len items + Z.of_nat (inserted_count indices) - 1))
         indices →
       len items + Z.of_nat (inserted_count indices) ≤ ssize_t_max →
       outcome
       = (Returned None,
          save_items store topic
            match indices with
            | [] => new_item :: items
            | _ => foldl (add_at new_item) items order
            end))
    ∧ (∀ i, indices = [i] → - len items < i + 1 < 0 →
       len items ≤ ssize_t_max →
       outcome
       = (Returned None,
          save_items store topic
            (insert_before_last new_item items (- (i + 1)))))
    ∧ (∀ i, i ∈ indices → i + 1 < ssize_t_min →
       outcome = (Uncaught OverflowError, store)).
Proof.
  pose proof ssize_t_range as Hrange.
  intros Hitem items outcome. exists (reversed (sorted_set indices)).
  assert (outcome
          = match add_items indices new_item items with
            | Ok items' => (Returned None, save_items store topic items')
            | Raise e => (Uncaught e, store)
            end) as Hperform.
  { unfold outcome, perform. cbn [String.eqb Ascii.eqb Bool.eqb]. fold items.
    by destruct (String.eqb_spec new_item "") as [|_]. }
  split_and!.
  - apply reversed_descending, sorted_set_sorted.
  - apply reversed_sorted_elem.
  - rewrite Hperform. unfold add_items. destruct indices as [|i indices]; [|done].
    by rewrite insert_inside by (unfold len; lia).
  - intros l i. apply add_step_spec.
  - intros Hindices Hlen. rewrite Hperform. unfold add_items, inserted_count in *.
    destruct indices as [|i indices].
    { by rewrite insert_inside by (unfold len; lia). }
    rewrite (add_loop_spec _ _ _
               (len items + Z.of_nat (length (remove_dups (i :: indices))) - 1));
      [done| | |].
    + apply Forall_forall. intros k Hk.
      apply (proj1 (reversed_sorted_elem _ _)) in Hk.
      by apply (proj1 (Forall_forall _ _) Hindices).
    + unfold len at 2. rewrite sorted_set_length. lia.
    + unfold len at 2. by rewrite sorted_set_length.
  - intros i -> Hi Hlen. rewrite Hperform.
    change (add_items [i] new_item items) with (add_step new_item items i ≫= Ok).
    rewrite add_step_spec by done.
    rewrite decide_False by lia.
    by rewrite decide_True by (unfold ssize_t_min, ssize_t_max in *; lia).
  - intros i Hi Hlow. rewrite Hperform.
    by rewrite (add_items_low indices new_item items i).
Qed.
End add_theorem.

(** ** [add] and then [pop] *)

Section marked_facts.
Implicit Types (T : list (bool * string)) (x : string) (i : Z).

Lemma mark_old_items items : (mark_old items).*2 = items.
Proof.
  unfold mark_old. rewrite <-list_fmap_compose. by rewrite list_fmap_id.
Qed.

(** The run on the marked items is the run on the items, with the marks
    riding along. *)
Lemma add_all_marked_items adds T :
  add_all adds (T.*2) = fmap (M:=result) (fmap (M:=list) snd) (add_all (mark_new <$> adds) T).
Proof.
  revert T. induction adds as [|[indices x] adds IH]; intros T; [done|].
  cbn [add_all fmap list_fmap mark_new fst snd].
  change x with ((true, x).2) at 1. rewrite add_items_fmap.
  destruct (add_items indices (true, x) T) as [T'|e]; [|done].
  cbn [fmap result_fmap]. rewrite !bind_Ok. apply IH.
Qed.

Lemma add_items_marked_old indices x T T' :
  add_items indices (true, x) T = Ok T' →
  filter (fun t => t.1 = false) T' = filter (fun t => t.1 = false) T.
Proof.
  assert (∀ T1 T2, filter (fun t : bool * string => t.1 = false)
                     (T1 ++ (true, x) :: T2)
                   = filter (fun t => t.1 = false) (T1 ++ T2)) as Hstep.
  { intros T1 T2. by rewrite !filter_app, filter_cons_False. }
  unfold add_items. destruct indices as [|i indices].
  { intros (T1 & T2 & -> & ->)%insert_Ok. apply Hstep. }
  generalize (reversed (sorted_set (i :: indices))). intros order. revert T.
  induction order as [|k order IH]; intros T; [by intros [= <-]|].
  cbn [add_loop]. destruct (add_step (true, x) T k) as [T1|e] eqn:Hk; [|done].
  rewrite bind_Ok. intros ->%IH.
  apply add_step_Ok in Hk as (T2 & T3 & -> & ->). apply Hstep.
Qed.

Lemma add_items_marked_new indices x T T' :
  add_items indices (true, x) T = Ok T' →
  (filter (fun t => t.1 = true) T').*2
  ≡ₚ replicate (inserted_count indices) x
     ++ (filter (fun t => t.1 = true) T).*2.
Proof.
  assert (∀ T1 T2, (filter (fun t : bool * string => t.1 = true)
                      (T1 ++ (true, x) :: T2)).*2
                   ≡ₚ x :: (filter (fun t => t.1 = true) (T1 ++ T2)).*2) as Hstep.
  { intros T1 T2. rewrite !filter_app, filter_cons_True by done.
    rewrite !fmap_app, fmap_cons. by rewrite Permutation_middle. }
  unfold add_items, inserted_count. destruct indices as [|i indices].
  { intros (T1 & T2 & -> & ->)%insert_Ok. apply Hstep. }
  rewrite <-sorted_set_length.
  generalize (reversed (sorted_set (i :: indices))). intros order. revert T.
  induction order as [|k order IH]; intros T; [by intros [= <-]|].
  cbn [add_loop]. destruct (add_step (true, x) T k) as [T1|e] eqn:Hk; [|done].
  rewrite bind_Ok. intros ->%IH.
  apply add_step_Ok in Hk as (T2 & T3 & -> & ->).
  rewrite Hstep. symmetry. apply (Permutation_middle (replicate (length order) x)).
Qed.

Lemma add_all_marked_old adds T T' :
  add_all (mark_new <$> adds) T = Ok T' →
  filter (fun t => t.1 = false) T' = filter (fun t => t.1 = false) T.
Proof.
  revert T. induction adds as [|[indices x] adds IH]; intros T.
  { by intros [= <-]. }
  cbn [add_all fmap list_fmap mark_new fst snd].
  destruct (add_items indices (true, x) T) as [T1|e] eqn:Hadd; [|done].
  rewrite bind_Ok. intros ->%IH. by eapply add_items_marked_old.
Qed.

Lemma add_all_marked_new adds T T' :
  add_all (mark_new <$> adds) T = Ok T' →
  (filter (fun t => t.1 = true) T').*2
  ≡ₚ (filter (fun t => t.1 = true) T).*2 ++ inserted_items adds.
Proof.
  unfold inserted_items. revert T.
  induction adds as [|[indices x] adds IH]; intros T.
  { intros [= <-]. by rewrite app_nil_r. }
  cbn [add_all fmap list_fmap mark_new fst snd].
  destruct (add_items indices (true, x) T) as [T1|e] eqn:Hadd; [|done].
  rewrite bind_Ok. intros ->%IH.
  rewrite (add_items_marked_new _ _ _ _ Hadd), bind_cons. cbn [fst snd].
  rewrite (Permutation_app_comm (replicate _ _)). by rewrite <-(assoc_L (++)).
Qed.

(** A run goes through when no index is below the range of [Py_ssize_t]
    and the list it builds stays inside it. *)
Lemma add_all_runs (adds : list (list Z * string)) items :
  Forall (fun a => Forall (fun i => ssize_t_min ≤ i + 1) a.1) adds →
  len items + len (inserted_items adds) ≤ ssize_t_max →
  ∃ result, add_all adds items = Ok result.
Proof.
  intros Hadds. revert items.
  induction Hadds as [|[indices x] adds Ha _ IH]; intros items Hlen.
  { by exists items. }
  unfold inserted_items, len in Hlen. rewrite bind_cons, length_app in Hlen.
  cbn [fst snd] in *. rewrite length_replicate in Hlen.
  destruct (add_items_runs indices x items Ha) as (items' & Hadd & Hlen').
  { unfold len. lia. }
  destruct (IH items') as (result & Hresult).
  { rewrite Hlen'. unfold inserted_items, len. lia. }
  exists result. cbn [add_all fst snd]. by rewrite Hadd, bind_Ok.
Qed.
End marked_facts.

Section round_trip.
Implicit Types (T : list (bool * string)) (items : list string).

Lemma marked_positions_from T lo :
  let P := (filter (fun e : Z * (bool * string) => e.2.1 = true) (enumerate T lo)).*1 in
  (∀ k, k ∈ P → lo ≤ k)
  ∧ length P = length (filter (fun t : bool * string => t.1 = true) T)
  ∧ (filter (fun e : Z * string => e.1 ∈ P) (enumerate (T.*2) lo)).*2
    = (filter (fun t : bool * string => t.1 = true) T).*2
  ∧ (filter (fun e : Z * string => e.1 ∉ P) (enumerate (T.*2) lo)).*2
    = (filter (fun t : bool * string => t.1 = false) T).*2.
Proof.
  revert lo. induction T as [|[b s] T IH]; intros lo.
  { cbn. split_and!; try done. intros k []%elem_of_nil. }
  destruct (IH (lo + 1)) as (Hlow & Hlen & Hat & Hexcept). clear IH.
  cbn zeta in *. cbn [enumerate fmap list_fmap snd].
  set (P' := (filter (fun e : Z * (bool * string) => e.2.1 = true)
                   (enumerate T (lo + 1))).*1) in *.
  assert (lo ∉ P') as Hlo by (intros ?%Hlow; lia).
  rewrite !(filter_cons _ (lo, (b, s))). cbn [fst snd].
  destruct b.
  - rewrite decide_True by done. cbn [fmap list_fmap fst snd]. fold P'.
    rewrite !filter_cons. cbn [fst].
    rewrite !(decide_True (P:=true = true)) by done.
    rewrite (decide_True (P:=lo ∈ lo :: P')) by apply list_elem_of_here.
    rewrite (decide_False (P:=lo ∉ lo :: P'))
      by (intros Hn; apply Hn, list_elem_of_here).
    rewrite (decide_False (P:=true = false)) by done.
    rewrite (filter_enumerate_ext (fun e => e.1 ∈ lo :: P') (fun e => e.1 ∈ P')).
    2:{ intros k x Hk. cbn [fst]. rewrite elem_of_cons.
        split; [intros [?|?]; [lia|done]|by right]. }
    rewrite (filter_enumerate_ext (fun e => e.1 ∉ lo :: P') (fun e => e.1 ∉ P')).
    2:{ intros k x Hk. cbn [fst]. rewrite elem_of_cons.
        split; [tauto|]. intros ? [?|?]; [lia|done]. }
    cbn [fmap list_fmap snd length]. rewrite Hat, Hexcept, Hlen.
    split_and!; try done.
    intros k [->|?%Hlow]%elem_of_cons; lia.
  - rewrite decide_False by done. fold P'.
    rewrite !filter_cons. cbn [fst].
    rewrite !(decide_False (P:=false = true)) by done.
    rewrite (decide_False (P:=lo ∈ P')) by done.
    rewrite (decide_True (P:=lo ∉ P')) by done.
    rewrite (decide_True (P:=false = false)) by done.
    cbn [fmap list_fmap snd length]. rewrite Hat, Hexcept, Hlen.
    split_and!; try done.
    intros k ?%Hlow; lia.
Qed.

Lemma items_at_marked T :
  items_at (marked_positions T) (T.*2)
  = (filter (fun t : bool * string => t.1 = true) T).*2
  ∧ items_except (marked_positions T) (T.*2)
    = (filter (fun t : bool * string => t.1 = false) T).*2
  ∧ length (marked_positions T)
    = length (filter (fun t : bool * string => t.1 = true) T).
Proof.
  destruct (marked_positions_from T 0) as (_ & Hlen & Hat & Hexcept).
  by split_and!.
Qed.

Lemma unmarked_old items :
  filter (fun t : bool * string => t.1 = false) (mark_old items)
  = mark_old items
  ∧ filter (fun t : bool * string => t.1 = true) (mark_old items) = [].
Proof.
  unfold mark_old. induction items as [|x items [IH1 IH2]]; [done|].
  cbn [fmap list_fmap]. rewrite filter_cons_True, filter_cons_False by done.
  by rewrite IH1, IH2.
Qed.

Lemma inserted_items_nonempty (adds : list (list Z * string)) :
  adds ≠ [] → inserted_items adds ≠ [].
Proof.
  destruct adds as [|[indices x] adds]; [done|]. intros _.
  unfold inserted_items. rewrite bind_cons. cbn [fst snd].
  assert (inserted_count indices ≠ 0%nat) as Hcount.
  { unfold inserted_count. destruct indices as [|i indices]; [done|].
    assert (i ∈ remove_dups (i :: indices)) as Hi
      by apply elem_of_remove_dups, list_elem_of_here.
    by destruct (remove_dups (i :: indices)); [apply elem_of_nil in Hi|]. }
  by destruct (inserted_count indices).
Qed.

Lemma add_all_restored adds items result :
  add_all adds items = Ok result →
  let P := inserted_positions adds items in
  items_except P result = items
  ∧ items_at P result ≡ₚ inserted_items adds
  ∧ length P = length (inserted_items adds).
Proof.
  intros Hrun. cbv zeta. unfold inserted_positions.
  rewrite <-(mark_old_items items), add_all_marked_items in Hrun.
  destruct (add_all (mark_new <$> adds) (mark_old items)) as [T|e] eqn:HT;
    [|done].
  injection Hrun as <-.
  destruct (items_at_marked T) as (-> & -> & ->).
  destruct (unmarked_old items) as [Hold Hnew].
  pose proof (add_all_marked_new adds _ _ HT) as Hperm.
  rewrite Hnew in Hperm. cbn [fmap list_fmap app] in Hperm.
  split_and!.
  - by rewrite (add_all_marked_old adds _ _ HT), Hold, mark_old_items.
  - done.
  - rewrite <-(length_fmap snd). by rewrite Hperm.
Qed.

(** Claim C9. An [add] at an index inside the list followed by a [pop]
    of the position the new item went to gives back the list; and after
    any run of [add] commands, one [pop] whose indices are the positions
    of the new items, given in any order, removes the new items, as many
    as the run put in, and gives back the list the run started from. A
    run is one in which every [add] returns: they all do when no index is
    below the range of [Py_ssize_t] and the list stays inside it, as
    every list of Python does. *)
Theorem add_then_pop_restores :
  (∀ items i x, 0 ≤ i < len items → len items ≤ ssize_t_max →
     (added ← add_items [i] x items; pop_items [i + 1] added)
     = Ok ([x], items))
  ∧ (∀ adds items result positions,
       adds ≠ [] → add_all adds items = Ok result →
       positions ≡ₚ inserted_positions adds items →
       length positions = length (inserted_items adds)
       ∧ ∃ popped,
           pop_items positions result = Ok (popped, items)
           ∧ popped ≡ₚ inserted_items adds)
  ∧ (∀ (adds : list (list Z * string)) items,
       Forall (fun a => Forall (fun i => ssize_t_min ≤ i + 1) a.1) adds →
       len items + len (inserted_items adds) ≤ ssize_t_max →
       ∃ result, add_all adds items = Ok result).
Proof.
  split_and!.
  - intros items i x Hi Hmax.
    change (add_items [i] x items) with (add_step x items i ≫= Ok).
    rewrite add_step_spec by done. rewrite decide_True by lia.
    rewrite !bind_Ok.
    unfold add_at. case_decide; [lia|].
    unfold insert_after. rewrite pop_items_spec. cbv zeta.
    destruct (items_at_largest [] (i + 1) (take (Z.to_nat (i + 1)) items) x
                (drop (Z.to_nat (i + 1)) items)) as [Hat Hexcept].
    { intros j []%elem_of_nil. }
    { unfold len in *. rewrite length_take. lia. }
    cbn [app] in Hat, Hexcept. rewrite Hat, Hexcept.
    by rewrite items_at_nil, items_except_nil, take_drop.
  - intros adds items result positions Hadds Hrun Hperm.
    destruct (add_all_restored adds items result Hrun) as (Hexcept & Hat & Hlen).
    split; [by rewrite Hperm|].
    exists (reverse (items_at positions result)).
    assert (positions ≠ []) as Hne.
    { intros ->. apply Permutation_nil_l in Hperm.
      rewrite <-Hperm in Hlen. apply inserted_items_nonempty in Hadds.
      by destruct (inserted_items adds). }
    rewrite pop_items_spec.
    assert (match positions with [] => [0] | _ :: _ => positions end = positions)
      as -> by (by destruct positions).
    destruct (items_at_same positions (inserted_positions adds items) result)
      as [-> ->].
    { intros k _. by rewrite Hperm. }
    rewrite Hexcept. split; [done|]. by rewrite reverse_Permutation.
  - apply add_all_runs.
Qed.
End round_trip.

(** ** Malformed index expressions *)

Section index_errors.
Context (re_search : string → string → result bool).
Context (random_shuffle : list string → list string).

Lemma stack_index_error nick rest store topic index new_item e :
  command_syntax nick (split_subcommand rest).2 = Ok (topic, index, new_item) →
  parse_index re_search index (get_items store topic) = Raise e →
  stack re_search random_shuffle nick rest store
  = (match e with
     | ValueError => Returned (Some Help.index)
     | _ => Uncaught e
     end, store).
Proof.
  intros Hsyntax Hparse. unfold stack.
  destruct (split_subcommand rest) as [subcommand rest'].
  cbn [snd] in Hsyntax. rewrite Hsyntax, Hparse. by destruct e.
Qed.

(** Claim C5, at the inputs where it fails. An atom that is no integer
    is reported: the response is the index help, and the store is left as
    it was. A regex atom whose pattern does not compile is not: on a
    stack with an item the error of [re.search] leaves [stack] uncaught,
    and on an empty stack the pattern is never looked at, so that [add]
    writes the store. *)
Theorem malformed_regex_not_reported item items store :
  re_search "(" item = Raise ReError →
  get_items store "n" = item :: items →
  stack re_search random_shuffle "n" "add [abc] x" store
  = (Returned (Some Help.index), store)
  ∧ stack re_search random_shuffle "n" "add [/(/] x" store
    = (Uncaught ReError, store)
  ∧ stack re_search random_shuffle "n" "add [/(/] x" ∅
    = (Returned None, save_items ∅ "n" ["x"]).
Proof.
  intros Hre Hitems. split_and!; [| |reflexivity].
  - by apply (stack_index_error _ _ _ "n" (Some "abc") "x" ValueError).
  - apply (stack_index_error _ _ _ "n" (Some "/(/") "x" ReError); [done|].
    rewrite Hitems.
    change (parse_index re_search (Some "/(/") (item :: items))
      with (found ← (b ← re_search "(" item;
                     found ← matching (re_search "(") (enumerate items 1);
                     Ok (if b : bool then 0 :: found else found));
            Ok ([] ++ found)).
    by rewrite Hre.
Qed.
End index_errors.

(** * The theorems at concrete inputs *)

Lemma absent_by_find (s : string) (c : ascii) :
  find s c = -1 → ¬ occurs_in (String c "") s.
Proof. apply find_absent. Qed.

Lemma absent_by_rfind (s : string) (c : ascii) :
  rfind s c = -1 → ¬ occurs_in (String c "") s.
Proof. apply rfind_absent. Qed.

Lemma quoted_atom_positions_witness :
  (squote = squote ∨ squote = dquote)
  ∧ ∃ l, parse_atom re_plain ["Red"; "indigo"; "violet"] "'I'" = Ok l
       ∧ (¬ occurs_in "," "I" →
          parse_index re_plain (Some "'I'") ["Red"; "indigo"; "violet"] = Ok l)
       ∧ StronglySorted Z.lt l
       ∧ ∀ i, i ∈ l ↔
           0 ≤ i ∧ ∃ item, ["Red"; "indigo"; "violet"] !! Z.to_nat i = Some item
                         ∧ occurs_in (lower "I") (lower item).
Proof.
  split; [by left|].
  apply (quoted_atom_positions re_plain squote "I" ["Red"; "indigo"; "violet"]).
  by left.
Defined.

Lemma range_atom_positions_witness :
  ¬ occurs_in ":" "-2"
  ∧ int_or (strip "-2") 1 = Ok (-2)
  ∧ int_or (strip "") (len ["a"; "b"; "c"]) = Ok 3
  ∧ ∃ l, parse_atom re_plain ["a"; "b"; "c"] "-2:" = Ok l
       ∧ (strip "-2:" = "-2:" → ¬ occurs_in "," "-2:" →
          parse_index re_plain (Some "-2:") ["a"; "b"; "c"] = Ok l)
       ∧ l = seqZ 1 (2 - 1 + 1)
       ∧ StronglySorted Z.lt l
       ∧ (∀ i, i ∈ l ↔ 1 ≤ i ≤ 2)
       ∧ (2 < 1 → l = []).
Proof.
  assert (¬ occurs_in ":" "-2") as H by (by apply absent_by_find).
  split_and!; [exact H|reflexivity|reflexivity|].
  exact (range_atom_positions re_plain ["a"; "b"; "c"] "-2" "" (-2) 3
           H eq_refl eq_refl).
Defined.

Lemma command_syntax_spec_witness :
  bracketed "meetup[3] buy milk" "meetup" "3" " buy milk"
  ∧ command_syntax "nick" "meetup[3] buy milk" = Ok ("meetup", Some "3", "buy milk")
  ∧ (¬ ∃ pre mid post, bracketed "buy [milk]" pre mid post)
  ∧ command_syntax "nick" "buy [milk]" = Ok ("nick", None, "buy [milk]").
Proof.
  assert (bracketed "meetup[3] buy milk" "meetup" "3" " buy milk") as H1.
  { split_and!; [reflexivity|by apply absent_by_find..|by apply absent_by_rfind]. }
  assert (¬ ∃ pre mid post, bracketed "buy [milk]" pre mid post) as H2.
  { intros (pre & mid & post & H).
    apply (command_syntax_bracketed "nick") in H. discriminate H. }
  split_and!; [exact H1| |exact H2|].
  - exact (proj1 (command_syntax_spec "nick" "meetup[3] buy milk") _ _ _ H1).
  - exact (proj2 (command_syntax_spec "nick" "buy [milk]") H2).
Defined.

Lemma shuffle_by_index_witness :
  [2; 0; 0; 5] ≠ []
  ∧ perform keep_order "shuffle" "n" "" [2; 0; 0; 5] abc
    = (Returned (Some "1: c | 2: a | 3: a"), save_items abc "n" ["c"; "a"; "a"]).
Proof.
  assert ([2; 0; 0; 5] ≠ @nil Z) as H by done.
  split; [exact H|].
  exact (proj1 (shuffle_by_index re_plain keep_order "n" "" [2; 0; 0; 5] abc H)).
Defined.

Lemma show_renders_witness :
  perform keep_order "show" "n" "" [] abc
  = (Returned (Some "1: a | 2: b | 3: c"), abc)
  ∧ perform keep_order "show" "n" "multi" [2; 0; 0; 5] abc
    = (Returned (Some ("3: c" +:+ String newline ("1: a" +:+ String newline "1: a"))),
       abc)
  ∧ perform keep_order "show" "n" "lines" [2] abc
    = (Returned (Some Help.show), abc).
Proof.
  split_and!.
  - exact (proj1 (show_renders keep_order "n" "" [] abc) eq_refl).
  - refine (proj1 (proj2 (show_renders keep_order "n" "multi" [2; 0; 0; 5] abc)) _ _).
    + discriminate.
    + by exists "line".
  - refine (proj2 (proj2 (show_renders keep_order "n" "lines" [2] abc)) _ _).
    + discriminate.
    + intros [rest H]. discriminate H.
Defined.

Lemma add_inserts_witness :
  "x" ≠ ""
  ∧ parse_index re_plain (Some "-5") ["a"; "b"; "c"] = Ok [-2]
  ∧ stack re_plain keep_order "n" "add [-5] x" abc
    = (Returned None, save_items abc "n" ["a"; "b"; "x"; "c"])
  ∧ add_at "x" ["a"; "b"; "c"] (-2) = ["x"; "a"; "b"; "c"]
  ∧ insert_before_last "x" ["a"; "b"; "c"] (- (-2 + 1)) = ["a"; "b"; "x"; "c"]
  ∧ stack re_plain keep_order "n" "add [-99999999999999999999] x" abc
    = (Uncaught OverflowError, abc)
  ∧ ∃ order,
      StronglySorted Z.gt order
      ∧ (∀ i, i ∈ order ↔ i ∈ [-2])
      ∧ perform keep_order "add" "n" "x" [-2] abc
        = match add_loop "x" ["a"; "b"; "c"] order with
          | Ok items' => (Returned None, save_items abc "n" items')
          | Raise e => (Uncaught e, abc)
          end
      ∧ (∀ l i, len l ≤ ssize_t_max →
           add_step "x" l i
           = if decide (-1 ≤ i ∨ ssize_t_min ≤ i + 1 ≤ - len l)
             then Ok (add_at "x" l i)
             else if decide (ssize_t_min ≤ i + 1)
                  then Ok (insert_before_last "x" l (- (i + 1)))
                  else Raise OverflowError)
      ∧ (Forall (fun i => -1 ≤ i ∨ ssize_t_min ≤ i + 1
                         ≤ - (len ["a"; "b"; "c"]
                              + Z.of_nat (inserted_count [-2]) - 1)) [-2] →
         len ["a"; "b"; "c"] + Z.of_nat (inserted_count [-2]) ≤ ssize_t_max →
         perform keep_order "add" "n" "x" [-2] abc
         = (Returned None,
            save_items abc "n" (foldl (add_at "x") ["a"; "b"; "c"] order)))
      ∧ (∀ i, [-2] = [i] → - len ["a"; "b"; "c"] < i + 1 < 0 →
         len ["a"; "b"; "c"] ≤ ssize_t_max →
         perform keep_order "add" "n" "x" [-2] abc
         = (Returned None,
            save_items abc "n"
              (insert_before_last "x" ["a"; "b"; "c"] (- (i + 1)))))
      ∧ (∀ i, i ∈ [-2] → i + 1 < ssize_t_min →
         perform keep_order "add" "n" "x" [-2] abc
         = (Uncaught OverflowError, abc)).
Proof.
  assert ("x" ≠ "") as H1 by done.
  split_and!; [exact H1|reflexivity..|].
  exact (add_inserts keep_order "n" "x" [-2] abc H1).
Defined.

Lemma add_then_pop_restores_witness :
  (added ← add_items [1] "x" ["a"; "b"; "c"]; pop_items [1 + 1] added)
  = Ok (["x"], ["a"; "b"; "c"])
  ∧ add_all [([0; 2; 0], "x"); ([], "y")] ["a"; "b"; "c"]
    = Ok ["y"; "a"; "x"; "b"; "c"; "x"]
  ∧ length (reverse (inserted_positions [([0; 2; 0], "x"); ([], "y")] ["a"; "b"; "c"]))
    = length (inserted_items [([0; 2; 0], "x"); ([], "y")])
  ∧ ∃ popped,
      pop_items (reverse (inserted_positions [([0; 2; 0], "x"); ([], "y")] ["a"; "b"; "c"]))
        ["y"; "a"; "x"; "b"; "c"; "x"]
      = Ok (popped, ["a"; "b"; "c"])
      ∧ popped ≡ₚ inserted_items [([0; 2; 0], "x"); ([], "y")].
Proof.
  assert (add_all [([0; 2; 0], "x"); ([], "y")] ["a"; "b"; "c"]
          = Ok ["y"; "a"; "x"; "b"; "c"; "x"]) as Hrun by reflexivity.
  split_and!; [|exact Hrun|..].
  - refine (proj1 add_then_pop_restores ["a"; "b"; "c"] 1 "x" _ _).
    + unfold len. simpl. lia.
    + unfold len, ssize_t_max. simpl. lia.
  - refine (proj1 (proj1 (proj2 add_then_pop_restores)
              [([0; 2; 0], "x"); ([], "y")] ["a"; "b"; "c"] _ _ _ Hrun _)).
    + discriminate.
    + apply reverse_Permutation.
  - refine (proj2 (proj1 (proj2 add_then_pop_restores)
              [([0; 2; 0], "x"); ([], "y")] ["a"; "b"; "c"] _ _ _ Hrun _)).
    + discriminate.
    + apply reverse_Permutation.
Defined.

Lemma malformed_regex_not_reported_witness :
  re_plain "(" "a" = Raise ReError
  ∧ get_items abc "n" = "a" :: ["b"; "c"]
  ∧ stack re_plain keep_order "n" "add [abc] x" abc
    = (Returned (Some Help.index), abc)
  ∧ stack re_plain keep_order "n" "add [/(/] x" abc = (Uncaught ReError, abc)
  ∧ stack re_plain keep_order "n" "add [/(/] x" ∅
    = (Returned None, save_items ∅ "n" ["x"]).
Proof.
  split_and!; [reflexivity|reflexivity|..];
    apply (malformed_regex_not_reported re_plain keep_order "a" ["b"; "c"] abc
             eq_refl eq_refl).
Defined.

(** [pop [:]] on three items: all of them are reported, in ascending
    position, and the stack is left empty. *)
Lemma pop_all_example :
  stack re_plain keep_order "n" "pop [:]" abc
  = (Returned (Some "-: a | -: b | -: c"), save_items abc "n" []).
Proof. reflexivity. Qed.

(** * Further properties of the parser, the command and the quotes *)

(** ** Index expressions of several atoms *)

Section comma_lists.
Context (re_search : string → string → result bool).
Implicit Types (s p : string) (c : ascii) (items : list string).

Lemma split_nonempty s c : split s c ≠ [].
Proof.
  induction s as [|a s IH]; [done|]. cbn [split].
  destruct (Ascii.eqb a c); [done|]. by destruct (split s c).
Qed.

Lemma split_app s c p : split (s +:+ String c p) c = split s c ++ split p c.
Proof.
  induction s as [|a s IH].
  - rewrite sapp_nil_l. cbn [split]. by rewrite Ascii.eqb_refl.
  - rewrite sapp_cons. cbn [split]. rewrite IH.
    destruct (Ascii.eqb a c); [done|].
    pose proof (split_nonempty s c). by destruct (split s c).
Qed.

Lemma parse_atoms_acc items atoms acc :
  parse_atoms re_search items atoms acc
  = found ← parse_atoms re_search items atoms []; Ok (acc ++ found).
Proof.
  revert acc. induction atoms as [|atom atoms IH]; intros acc.
  { cbn. by rewrite app_nil_r. }
  cbn [parse_atoms]. destruct (_ =? _)%string; [apply IH|].
  destruct (parse_atom re_search items (strip atom)) as [found|e]; [|done].
  rewrite !bind_Ok. rewrite (IH (acc ++ found)), (IH ([] ++ found)).
  destruct (parse_atoms re_search items atoms []) as [more|e]; [|done].
  rewrite !bind_Ok. by rewrite (assoc_L (++)).
Qed.

Lemma parse_atoms_app items atoms1 atoms2 :
  parse_atoms re_search items (atoms1 ++ atoms2) []
  = l1 ← parse_atoms re_search items atoms1 [];
    l2 ← parse_atoms re_search items atoms2 [];
    Ok (l1 ++ l2).
Proof.
  induction atoms1 as [|atom atoms1 IH].
  { cbn [app parse_atoms]. rewrite bind_Ok.
    by destruct (parse_atoms re_search items atoms2 []). }
  cbn [app parse_atoms]. destruct (_ =? _)%string; [apply IH|].
  destruct (parse_atom re_search items (strip atom)) as [found|e]; [|done].
  rewrite !bind_Ok.
  rewrite (parse_atoms_acc items (atoms1 ++ atoms2)), IH.
  rewrite (parse_atoms_acc items atoms1 found).
  destruct (parse_atoms re_search items atoms1 []) as [l1|e]; [|done].
  rewrite !bind_Ok.
  destruct (parse_atoms re_search items atoms2 []) as [l2|e]; [|done].
  rewrite !bind_Ok. by rewrite (assoc_L (++)).
Qed.

(** Property X1. [parse_index] reads a comma-separated expression part by
    part: the positions of [e1,e2] are those of [e1] followed by those of
    [e2], duplicates kept, and the first part that raises decides the
    exception. *)
Theorem parse_index_comma items e1 e2 :
  parse_index re_search (Some (e1 +:+ String "," e2)) items
  = l1 ← parse_index re_search (Some e1) items;
    l2 ← parse_index re_search (Some e2) items;
    Ok (l1 ++ l2).
Proof. unfold parse_index. by rewrite split_app, parse_atoms_app. Qed.
End comma_lists.

(** ** Index expressions without an atom *)

Section blank_expressions.
Context (re_search : string → string → result bool).
Implicit Types (s p : string) (c : ascii) (items : list string).

Lemma lstrip_all_space s : all_space s → lstrip s = "".
Proof.
  induction s as [|a s IH]; intros Hs; [done|].
  cbn [lstrip]. rewrite (Hs a) by (apply occurs_cons; by left).
  apply IH. intros c Hc. apply Hs, occurs_cons. by right.
Qed.

Lemma strip_all_space s : all_space s → strip s = "".
Proof. intros Hs. unfold strip. by rewrite lstrip_all_space. Qed.

Lemma split_blank s :
  blank_or_comma s → Forall all_space (split s ",").
Proof.
  induction s as [|a s IH]; intros Hs.
  { repeat constructor. intros c []%occurs_nil. }
  assert (blank_or_comma s) as Hs'.
  { intros c Hc. apply Hs, occurs_cons. by right. }
  specialize (IH Hs'). cbn [split].
  destruct (Ascii.eqb_spec a ",") as [->|Hne].
  { constructor; [|done]. intros c []%occurs_nil. }
  pose proof (split_nonempty s ",") as Hnil.
  destruct (split s ",") as [|h t]; [done|].
  apply Forall_cons in IH as [Hh Ht]. constructor; [|done].
  intros c [->|Hc]%occurs_cons; [|by apply Hh].
  destruct (Hs a) as [?|?]; [apply occurs_cons; by left|done|done].
Qed.

Lemma parse_atoms_blank items atoms acc :
  Forall all_space atoms → parse_atoms re_search items atoms acc = Ok acc.
Proof.
  induction 1 as [|atom atoms Hatom _ IH]; [done|].
  cbn [parse_atoms]. by rewrite strip_all_space.
Qed.

(** Property X2. An index expression made of white space and commas only
    has no atom: [parse_index] gives the empty list and raises nothing. *)
Theorem blank_index_expression items s :
  blank_or_comma s → parse_index re_search (Some s) items = Ok [].
Proof. intros Hs. apply parse_atoms_blank, split_blank, Hs. Qed.
End blank_expressions.

(** ** The characters of an integer literal *)

Section literals.
Implicit Types (s p : string) (c : ascii).

Lemma lstrip_length s : (String.length (lstrip s) ≤ String.length s)%nat.
Proof.
  induction s as [|a s IH]; [done|]. cbn [lstrip].
  destruct (isspace a); cbn [String.length]; lia.
Qed.

Lemma rstrip_length s : (String.length (rstrip s) ≤ String.length s)%nat.
Proof.
  induction s as [|a s IH]; [done|]. cbn [rstrip].
  destruct (rstrip s); [destruct (isspace a)|]; cbn [String.length] in *; lia.
Qed.

Lemma strip_fixed s : strip s = s → lstrip s = s ∧ rstrip s = s.
Proof.
  intros Hs. unfold strip in Hs.
  assert (lstrip s = s) as Hl.
  { pose proof (rstrip_length (lstrip s)) as H1. rewrite Hs in H1.
    destruct s as [|a s]; [done|]. cbn [lstrip] in *.
    destruct (isspace a); [|done].
    pose proof (lstrip_length s). cbn [String.length] in H1. lia. }
  by rewrite Hl in Hs.
Qed.

Lemma lstrip_fixed_head a s : lstrip (String a s) = String a s → isspace a = false.
Proof.
  cbn [lstrip]. destruct (isspace a); [|done]. intros H.
  pose proof (lstrip_length s) as Hlen. rewrite H in Hlen.
  cbn [String.length] in Hlen. lia.
Qed.

Lemma not_blank c : isspace c = false → Int.blank c = false.
Proof.
  intros Hc. destruct (Int.blank c) eqn:Hb; [|done].
  apply blank_isspace in Hb. congruence.
Qed.

Lemma skip_blanks_fixed s : lstrip s = s → Int.skip_blanks s = s.
Proof.
  destruct s as [|a s]; [done|]. intros H%lstrip_fixed_head.
  cbn [Int.skip_blanks]. by rewrite not_blank.
Qed.

Lemma drop_trailing_blanks_fixed s : rstrip s = s → Int.drop_trailing_blanks s = s.
Proof.
  induction s as [|a s IH]; [done|]. cbn [rstrip Int.drop_trailing_blanks].
  destruct (rstrip s) as [|b r] eqn:Hr.
  - destruct (isspace a) eqn:Ha; [done|]. intros [= <-].
    cbn. by rewrite not_blank.
  - intros [= <-]. by rewrite IH.
Qed.

Lemma digits_chars s acc b z :
  Int.digits s acc b = Some z →
  ∀ c, occurs_in (String c "") s → is_Some (Int.digit c) ∨ c = "_"%char.
Proof.
  revert acc b. induction s as [|a s IH]; intros acc b H c Hc.
  { by apply occurs_nil in Hc. }
  cbn [Int.digits] in H. apply occurs_cons in Hc as [->|Hc].
  - destruct (Int.digit a); [by left; eexists|].
    destruct (Ascii.eqb_spec a "_") as [->|_]; [by right|done].
  - destruct (Int.digit a); [by eapply IH|].
    destruct (Ascii.eqb a "_" && b); [by eapply IH|done].
Qed.

Lemma signed_digits_chars s z :
  Int.signed_digits s = Some z →
  s ≠ "" ∧ ∀ c, occurs_in (String c "") s → literal_char c.
Proof.
  destruct s as [|a r]; [done|]. intros H. split; [done|].
  intros c [->|Hc]%occurs_cons.
  - destruct (decide (a = "+"%char)) as [->|H1]; [unfold literal_char; auto|].
    destruct (decide (a = "-"%char)) as [->|H2]; [unfold literal_char; auto|].
    assert (Int.digits (String a r) 0 false = Some z) as Hd.
    { revert H. by destruct a as [[] [] [] [] [] [] [] []]. }
    destruct (digits_chars _ _ _ _ Hd a) as [?|?];
      [apply occurs_cons; by left|unfold literal_char; auto..].
  - destruct (decide (a = "+"%char)) as [->|H1].
    { cbn in H. destruct (digits_chars _ _ _ _ H c Hc); unfold literal_char; auto. }
    destruct (decide (a = "-"%char)) as [->|H2].
    { cbn in H. destruct (Int.digits r 0 false) eqn:Hd; [|done].
      destruct (digits_chars _ _ _ _ Hd c Hc); unfold literal_char; auto. }
    assert (Int.digits (String a r) 0 false = Some z) as Hd.
    { revert H. by destruct a as [[] [] [] [] [] [] [] []]. }
    destruct (digits_chars _ _ _ _ Hd c) as [?|?];
      [apply occurs_cons; by right|unfold literal_char; auto..].
Qed.

Lemma int_literal_chars s z :
  strip s = s → Int.int s = Ok z →
  s ≠ "" ∧ ∀ c, occurs_in (String c "") s → literal_char c.
Proof.
  intros [Hl Hr]%strip_fixed. unfold Int.int.
  rewrite (skip_blanks_fixed s Hl), (drop_trailing_blanks_fixed s Hr).
  destruct (Int.signed_digits s) eqn:H; [|done]. intros _.
  by eapply signed_digits_chars.
Qed.
End literals.

(** ** Integer atoms *)

Section integer_atoms.
Context (re_search : string → string → result bool).
Implicit Types (s atom : string) (c : ascii) (items : list string).

Lemma literal_not_opening c : literal_char c → ¬ opens_match c.
Proof.
  intros [[d Hd] | [-> | [-> | ->] ] ] [E | [E | E] ]; subst; discriminate.
Qed.

Lemma rstrip_app_fixed p s :
  rstrip s = s → s ≠ "" → rstrip (p +:+ s) = p +:+ s.
Proof.
  intros Hs Hne. induction p as [|a p IH]; [done|].
  rewrite sapp_cons. cbn [rstrip]. rewrite IH.
  destruct (p +:+ s) eqn:E; [|done]. by destruct p.
Qed.

Lemma literal_atom_shape atom z :
  strip atom = atom → Int.int atom = Ok z →
  (∃ c r, atom = String c r ∧ ¬ opens_match c)
  ∧ contains atom ":" = false
  ∧ find atom "," = -1
  ∧ atom ≠ "first" ∧ atom ≠ "last".
Proof.
  intros Hs Hint. destruct (int_literal_chars atom z Hs Hint) as [Hne Hchars].
  assert (∀ c, ¬ literal_char c → ¬ occurs_in (String c "") atom) as Hno.
  { intros c Hc Hin. by apply Hc, Hchars. }
  split_and!.
  - destruct atom as [|c r]; [done|]. exists c, r. split; [done|].
    apply literal_not_opening, Hchars, occurs_cons. by left.
  - destruct (contains atom ":") eqn:E; [|done].
    apply contains_spec in E. destruct (Hno ":"%char); [|done].
    intros [[d Hd]|[?|[?|?]]]; discriminate.
  - apply find_absent, Hno. intros [[d Hd]|[?|[?|?]]]; discriminate.
  - intros ->. destruct (Hno "f"%char); [|by exists "", "irst"].
    intros [[d Hd]|[?|[?|?]]]; discriminate.
  - intros ->. destruct (Hno "l"%char); [|by exists "", "ast"].
    intros [[d Hd]|[?|[?|?]]]; discriminate.
Qed.

Lemma parse_atom_integer items atom z :
  strip atom = atom → Int.int atom = Ok z →
  parse_atom re_search items atom = Ok [from_bottom z items - 1].
Proof.
  intros Hs Hint.
  destruct (literal_atom_shape atom z Hs Hint)
    as ((c & r & Hatom & Hc) & Hcolon & _ & Hfirst & Hlast).
  assert (∀ q, opens_match q → startswith atom (String q "") = false) as Hstart.
  { intros q Hq. rewrite Hatom. apply startswith_cons_ne. by intros ->. }
  unfold parse_atom. rewrite Hcolon.
  rewrite (Hstart squote), (Hstart dquote), (Hstart "/"%char)
    by (unfold opens_match; auto).
  cbn [andb orb].
  destruct (String.eqb_spec atom "first") as [|_]; [done|].
  destruct (String.eqb_spec atom "last") as [|_]; [done|].
  rewrite Hint. reflexivity.
Qed.

(** Property X3. An atom that [int] accepts as [z] names one position:
    [z - 1] for [z >= 0] (so [0] gives [-1]) and [z + len(items)] for a
    negative [z]; the slice [z:z] names the same position. *)
Theorem integer_atom_position items atom z :
  strip atom = atom → Int.int atom = Ok z →
  parse_index re_search (Some atom) items
  = Ok [if decide (z < 0) then z + len items else z - 1]
  ∧ parse_index re_search (Some (atom +:+ String ":" atom)) items
    = parse_index re_search (Some atom) items.
Proof.
  intros Hs Hint.
  destruct (literal_atom_shape atom z Hs Hint)
    as ((c & r & Hatom & Hc) & Hcolon & Hcomma & _).
  assert (atom ≠ "") as Hne by (by rewrite Hatom).
  assert (parse_index re_search (Some atom) items
          = Ok [if decide (z < 0) then z + len items else z - 1]) as Hone.
  { unfold parse_index. rewrite split_absent, parse_atoms_single by done.
    rewrite (parse_atom_integer items atom z) by done. do 2 f_equal.
    unfold from_bottom. destruct (Z.ltb_spec z 0); case_decide; lia. }
  split; [done|]. rewrite Hone. unfold parse_index.
  assert (¬ occurs_in ":" atom) as Hno.
  { intros H%contains_spec. congruence. }
  assert (int_or (strip atom) 1 = Ok z ∧ int_or (strip atom) (len items) = Ok z)
    as [H1 H2].
  { rewrite Hs. unfold int_or. by destruct (String.eqb_spec atom "") as [|_]. }
  rewrite split_absent, parse_atoms_single.
  - rewrite (parse_atom_range re_search items atom atom z z Hno H1 H2).
    unfold range. replace (from_bottom z items - 1 + 1 - (from_bottom z items - 1))
      with 1 by lia.
    rewrite seqZ_cons, seqZ_nil by lia. do 2 f_equal.
    unfold from_bottom. destruct (Z.ltb_spec z 0); case_decide; lia.
  - destruct (strip_fixed atom Hs) as [Hl Hr]. unfold strip.
    assert (lstrip (atom +:+ String ":" atom) = atom +:+ String ":" atom) as ->.
    { rewrite Hatom in Hl |- *. rewrite sapp_cons.
      apply lstrip_cons. by eapply lstrip_fixed_head. }
    change (String ":" atom) with (":" +:+ atom).
    rewrite <-sapp_assoc. by apply rstrip_app_fixed.
  - by rewrite Hatom.
  - apply find_absent. rewrite occurs_app, occurs_cons.
    apply find_absent in Hcomma. intros [?|[?|?]]; done.
Qed.
End integer_atoms.

(** ** The sentinels and the regex atom *)

Section sentinel_and_regex_atoms.
Context (re_search : string → string → result bool).
Implicit Types (s atom : string) (c : ascii) (items : list string).

(** Property X4. [first] is position 0 and [last] is position
    [len(items) - 1], also on an empty stack, where it is [-1]; they agree
    with the atoms [1] and [-1]. *)
Theorem sentinel_atoms items :
  parse_index re_search (Some "first") items = Ok [0]
  ∧ parse_index re_search (Some "last") items = Ok [len items - 1]
  ∧ parse_index re_search (Some "first") items
    = parse_index re_search (Some "1") items
  ∧ parse_index re_search (Some "last") items
    = parse_index re_search (Some "-1") items.
Proof.
  split_and!; [reflexivity..|].
  unfold parse_index. change (split "last" ",") with ["last"].
  change (split "-1" ",") with ["-1"]. rewrite !parse_atoms_single by done.
  rewrite (parse_atom_integer re_search items "-1" (-1)) by done.
  trans (Ok [len items - 1] : result (list Z)); [reflexivity|].
  do 2 f_equal. unfold from_bottom. cbn [Z.ltb Z.compare]. lia.
Qed.

Lemma matching_ext (test : string → result bool) (f : string → bool) items k :
  (∀ item, item ∈ items → test item = Ok (f item)) →
  matching test (enumerate items k)
  = matching (fun item => Ok (f item)) (enumerate items k).
Proof.
  revert k. induction items as [|x items IH]; intros k Htest; [done|].
  cbn [enumerate matching]. rewrite Htest by apply list_elem_of_here.
  rewrite IH; [done|]. intros item Hitem. apply Htest. by right.
Qed.

Lemma parse_atom_regex items pattern :
  parse_atom re_search items (String "/" (pattern +:+ "/"))
  = matching (re_search pattern) (enumerate items 0).
Proof.
  unfold parse_atom. rewrite slice_enclosed.
  rewrite !(startswith_cons_ne "/") by done.
  by rewrite startswith_cons, endswith_enclosed.
Qed.

(** Property X5. When [re.search] answers for every item, the atom
    [/pattern/] gives, in ascending order and without repeats, exactly the
    positions of the items the search accepts. *)
Theorem regex_atom_positions items pattern (accepts : string → bool) :
  (∀ item, item ∈ items → re_search pattern item = Ok (accepts item)) →
  ∃ l, parse_atom re_search items (String "/" (pattern +:+ "/")) = Ok l
     ∧ (¬ occurs_in "," pattern →
        parse_index re_search (Some (String "/" (pattern +:+ "/"))) items = Ok l)
     ∧ StronglySorted Z.lt l
     ∧ ∀ i, i ∈ l ↔
         0 ≤ i ∧ ∃ item, items !! Z.to_nat i = Some item ∧ accepts item = true.
Proof.
  intros Hre.
  destruct (matching_pure accepts items 0) as (l & Hl & Hsorted & Hin).
  assert (parse_atom re_search items (String "/" (pattern +:+ "/")) = Ok l) as Hatom.
  { by rewrite parse_atom_regex, (matching_ext _ accepts). }
  exists l. split_and!; [done| |done|].
  - intros Hcomma. unfold parse_index.
    rewrite split_absent, parse_atoms_single; [done| |done|].
    + by apply strip_enclosed.
    + apply find_absent. rewrite occurs_cons, occurs_app, occurs_cons.
      intros [E|[?|[E|[]%occurs_nil]]]; [discriminate E|done|discriminate E].
  - intros i. by rewrite Hin, Z.sub_0_r.
Qed.

End sentinel_and_regex_atoms.

(** ** What leaves [stack], and what it writes *)

Section exceptions_and_frame.
Context (re_search : string → string → result bool).
Context (random_shuffle : list string → list string).
Implicit Types (s atom : string) (items : list string)
  (store : gmap string (list string)).

Lemma command_syntax_total nick rest :
  ∃ topic index new_item, command_syntax nick rest = Ok (topic, index, new_item).
Proof.
  destruct (negb (find rest "[" =? -1) && negb (rfind rest "]" =? -1)
            && (find rest "[" <? rfind rest "]")
            && ((find rest " " =? -1) || (find rest "[" <? find rest " ")))
    eqn:Hcond.
  - destruct (command_syntax_bracket_found rest) as (pre & mid & post & H);
      [rewrite !andb_true_iff, orb_true_iff, !negb_true_iff, !Z.eqb_neq,
         Z.eqb_eq, !Z.ltb_lt in Hcond; tauto..|].
    rewrite (command_syntax_bracketed nick rest pre mid post H). eauto.
  - unfold command_syntax. rewrite Hcond. eauto.
Qed.

Lemma int_raises s e : Int.int s = Raise e → e = ValueError.
Proof.
  unfold Int.int. cbv zeta. destruct (Int.signed_digits _); [|congruence].
  destruct (_ <? _); congruence.
Qed.

Lemma matching_raised (test : string → result bool) numbered e :
  matching test numbered = Raise e → ∃ item, test item = Raise e.
Proof.
  induction numbered as [|[i item] numbered IH]; [done|].
  cbn [matching]. destruct (test item) as [b|e'] eqn:Htest.
  - rewrite bind_Ok. destruct (matching test numbered); [done|].
    intros [= ->]. by apply IH.
  - intros [= ->]. eauto.
Qed.

Lemma parse_atom_raises items atom e :
  parse_atom re_search items atom = Raise e →
  e = ValueError ∨ ∃ pattern text, re_search pattern text = Raise e.
Proof.
  assert (∀ x d e', int_or x d = Raise e' → e' = ValueError) as Hint_or.
  { intros x d e'. unfold int_or. destruct (_ =? _)%string; [done|].
    apply int_raises. }
  unfold parse_atom.
  destruct (_ || _). { intros (item & H)%matching_raised. done. }
  destruct (_ && _). { intros (item & H)%matching_raised. eauto. }
  destruct (contains atom ":").
  { destruct (strip <$> split1 atom ":") as [|a [|b [|? ?]]];
      try (intros [= ->]; by left).
    destruct (int_or a 1) as [x|e1] eqn:H1.
    - rewrite bind_Ok.
      destruct (int_or b (len items)) as [y|e2] eqn:H2; [done|].
      intros [= ->]. left. by eapply Hint_or.
    - intros [= ->]. left. by eapply Hint_or. }
  destruct (_ =? _)%string; [done|]. destruct (_ =? _)%string; [done|].
  destruct (Int.int atom) eqn:Hi; [done|]. intros [= ->]. left.
  by eapply int_raises.
Qed.

Lemma parse_atoms_raises items atoms acc e :
  parse_atoms re_search items atoms acc = Raise e →
  e = ValueError ∨ ∃ pattern text, re_search pattern text = Raise e.
Proof.
  revert acc. induction atoms as [|atom atoms IH]; intros acc; [done|].
  cbn [parse_atoms]. destruct (_ =? _)%string; [apply IH|].
  destruct (parse_atom re_search items (strip atom)) as [found|e'] eqn:Hatom.
  - rewrite bind_Ok. apply IH.
  - intros [= ->]. by eapply parse_atom_raises.
Qed.

Lemma perform_outcome subcommand topic new_item indices store :
  ∃ response store',
    perform random_shuffle subcommand topic new_item indices store
    = (response, store')
    ∧ (store' = store ∨ ∃ items, store' = save_items store topic items)
    ∧ (∀ e, response = Uncaught e →
         store' = store ∧ e = OverflowError ∧ subcommand = "add")
    ∧ (subcommand ≠ "add" → subcommand ≠ "pop" → subcommand ≠ "shuffle" →
       store' = store).
Proof.
  unfold perform.
  destruct (String.eqb_spec subcommand "add") as [->|Hadd].
  { destruct (new_item =? "")%string.
    { eexists _, _. split; [done|]. split_and!; [by left|done|done]. }
    destruct (add_items indices new_item (get_items store topic))
      as [items|e] eqn:Hitems.
    - eexists _, _. split; [done|]. split_and!; [right; by eexists|done|done].
    - apply add_items_Raise in Hitems as ->.
      eexists _, _. split; [done|].
      split_and!; [by left| |done]. by intros e [= <-]. }
  destruct (String.eqb_spec subcommand "pop") as [->|Hpop].
  { rewrite pop_items_spec.
    eexists _, _. split; [done|]. split_and!; [right; by eexists|done|done]. }
  destruct (String.eqb_spec subcommand "show") as [->|Hshow].
  { assert (∃ response, show_items indices new_item (get_items store topic)
                        = Ok response) as [response ->].
    { unfold show_items. destruct (new_item =? "")%string;
        [|destruct (startswith "multiline" new_item)];
        rewrite ?select_spec, ?bind_Ok; eauto. }
    eexists _, _. split; [done|]. split_and!; [by left|done|done]. }
  destruct (String.eqb_spec subcommand "shuffle") as [->|Hshuffle].
  { assert (∃ items, shuffle_items random_shuffle indices (get_items store topic)
                     = Ok items) as [items ->].
    { unfold shuffle_items. destruct indices;
        rewrite ?select_spec, ?bind_Ok; eauto. }
    eexists _, _. split; [done|]. split_and!; [right; by eexists|done|done]. }
  destruct (subcommand =? "help")%string;
    (eexists _, _; split; [done|]; split_and!; [by left|done|done]).
Qed.

(** Property X6. Two kinds of exception leave [stack] (memory and the
    store's own failures aside, which the model does not have): those
    [re.search] raised, and the [OverflowError] of [list.insert] when
    [add] hands it a position outside the range of [Py_ssize_t]. Never a
    [ValueError], which line 291 turns into the index help; and [pop],
    [show] and [shuffle] raise nothing of their own, since they check
    every position before use. The store is then as it was. *)
Theorem stack_escapes nick rest store e store' :
  stack re_search random_shuffle nick rest store = (Uncaught e, store') →
  store' = store ∧ e ≠ ValueError
  ∧ ((∃ pattern text, re_search pattern text = Raise e)
     ∨ e = OverflowError ∧ (split_subcommand rest).1 = "add").
Proof.
  unfold stack. destruct (split_subcommand rest) as [subcommand rest'].
  destruct (command_syntax_total nick rest') as (topic & index & new_item & ->).
  destruct (parse_index re_search index (get_items store topic))
    as [indices|e'] eqn:Hparse.
  - destruct (perform_outcome subcommand topic new_item indices store)
      as (response & s & -> & _ & Hraise & _).
    intros [= -> ->]. destruct (Hraise e eq_refl) as (-> & -> & ->).
    split_and!; [done|done|by right].
  - assert (e' = ValueError ∨ ∃ pattern text, re_search pattern text = Raise e')
      as Hwhy.
    { destruct index as [index|]; [|done]. by eapply parse_atoms_raises. }
    destruct e'; [done|..]; intros [= <- <-];
      (split_and!; [done|done|]); left; by destruct Hwhy.
Qed.

(** Property X7. A call of [stack] touches no topic but the addressed one,
    writes the store at most once, and leaves it as it was for every
    subcommand other than [add], [pop] and [shuffle]. *)
Theorem stack_frame nick rest store topic index new_item :
  command_syntax nick (split_subcommand rest).2 = Ok (topic, index, new_item) →
  let store' := (stack re_search random_shuffle nick rest store).2 in
  (∀ other, other ≠ topic → get_items store' other = get_items store other)
  ∧ (store' = store ∨ ∃ items, store' = save_items store topic items)
  ∧ ((split_subcommand rest).1 ≠ "add" → (split_subcommand rest).1 ≠ "pop" →
     (split_subcommand rest).1 ≠ "shuffle" → store' = store).
Proof.
  intros Hsyntax. unfold stack.
  destruct (split_subcommand rest) as [subcommand rest']. cbn [fst snd] in *.
  rewrite Hsyntax.
  assert (∀ s : gmap string (list string),
            (s = store ∨ ∃ items, s = save_items store topic items) →
            ∀ other, other ≠ topic → get_items s other = get_items store other)
    as Hframe.
  { intros s [->|[items ->]] other Hother; [done|].
    unfold get_items, save_items. by rewrite lookup_insert_ne. }
  destruct (parse_index re_search index (get_items store topic))
    as [indices|e'] eqn:Hparse.
  - destruct (perform_outcome subcommand topic new_item indices store)
      as (response & s & Hperform & Hs & _ & Hother).
    cbv zeta. rewrite Hperform. cbn [snd]. split_and!; [by apply Hframe|done|done].
  - cbv zeta. assert ((match e' with
                       | ValueError => (Returned (Some Help.index), store)
                       | _ => (Uncaught e', store)
                       end).2 = store) as -> by (by destruct e').
    split_and!; auto.
Qed.
End exceptions_and_frame.

(** ** The subcommand word; what [add], [pop] and [shuffle] keep *)

Section subcommand_word.

Lemma split1_absent s c : ¬ occurs_in (String c "") s → split1 s c = [s].
Proof.
  induction s as [|a s IH]; intros H; [done|].
  cbn [split1]. destruct (Ascii.eqb a c) eqn:E.
  - apply Ascii.eqb_eq in E as ->. destruct H. exists "", s. done.
  - assert (Hs : ¬ occurs_in (String c "") s).
    { intros (pre & post & ->). apply H. exists (String a pre), post.
      by rewrite sapp_cons. }
    specialize (IH Hs). destruct (split1 s c) as [|h t] eqn:Es; [done|].
    by injection IH as -> ->.
Qed.

Lemma split_subcommand_one w :
  ¬ occurs_in " " w →
  split_subcommand w
  = (if decide (strip w = "") then ("show", "") else (strip w, "")).
Proof.
  intros Hw. unfold split_subcommand. rewrite split1_absent by done.
  rewrite filter_cons, filter_nil. by repeat case_decide.
Qed.

Lemma split_subcommand_two w r :
  ¬ occurs_in " " w →
  split_subcommand (w +:+ String " " r)
  = (if decide (strip w = "")
     then (if decide (strip r = "") then ("show", "") else (strip r, ""))
     else (strip w, strip r)).
Proof.
  intros Hw. unfold split_subcommand. rewrite split1_first by done.
  rewrite !filter_cons, filter_nil.
  repeat case_decide; try done; cbn; congruence.
Qed.

(** Property X8. Lines 265-273: the subcommand is the stripped text before
    the first blank and the rest is the stripped text after it; when there
    is nothing but white space the subcommand is [show]; when the text
    before the first blank is empty or white space, the whole remainder
    becomes the subcommand. *)
Theorem split_subcommand_spec w r :
  ¬ occurs_in " " w →
  split_subcommand w
  = (if decide (strip w = "") then ("show", "") else (strip w, ""))
  ∧ split_subcommand (w +:+ String " " r)
    = (if decide (strip w = "")
       then (if decide (strip r = "") then ("show", "") else (strip r, ""))
       else (strip w, strip r)).
Proof.
  intros Hw. split; [by apply split_subcommand_one|by apply split_subcommand_two].
Qed.

End subcommand_word.

Section add_invariants.

(** Property X9. When [add] returns, whatever the indices, it has kept
    every item in its order and put in the new item once for each
    distinct index (once when there is none): the result is the old list
    with copies of the new item in between. When it raises, it is the
    [OverflowError] of [list.insert]; on a list that stays within the
    range of [Py_ssize_t] that happens exactly when an index is so far
    below 0 that its position is below that range. *)
Theorem add_keeps_items indices (x : string) items :
  match add_items indices x items with
  | Ok items' =>
      items `sublist_of` items'
      ∧ items' ≡ₚ replicate (inserted_count indices) x ++ items
  | Raise e => e = OverflowError
  end
  ∧ (len items + Z.of_nat (inserted_count indices) ≤ ssize_t_max →
     (∃ items', add_items indices x items = Ok items')
     ↔ Forall (fun i => ssize_t_min ≤ i + 1) indices).
Proof.
  split.
  - destruct (add_items indices x items) as [items'|e] eqn:Hadd.
    + by apply add_items_Ok in Hadd.
    + by apply add_items_Raise in Hadd.
  - intros Hlen. split.
    + intros [items' Hadd]. apply Forall_forall. intros i Hi.
      destruct (decide (ssize_t_min ≤ i + 1)) as [|Hlow]; [done|].
      rewrite (add_items_low indices x items i) in Hadd; [done|done|lia].
    + intros Hindices.
      destruct (add_items_runs indices x items Hindices Hlen) as (items' & H & _).
      by exists items'.
Qed.
End add_invariants.

Section pop_invariants.

(** Property X10. [pop] never raises and loses nothing: the items it
    reports and the items it leaves are together the items it found, and
    both keep their order (the popped ones are collected from the bottom
    up). *)
Theorem pop_partitions indices items :
  ∃ popped left,
    pop_items indices items = Ok (popped, left)
    ∧ left `sublist_of` items
    ∧ reverse popped `sublist_of` items
    ∧ popped ++ left ≡ₚ items.
Proof.
  eexists _, _. split; [apply pop_items_spec|].
  set (requested := match indices with [] => [0] | _ => indices end).
  assert (Hsub : ∀ (P : Z * string → Prop) `{!∀ e, Decision (P e)},
             (filter P (enumerate items 0)).*2 `sublist_of` items).
  { intros P ?. rewrite <- (enumerate_snd items 0) at 2.
    apply fmap_sublist, sublist_filter. }
  split; [apply Hsub|]. split.
  - rewrite reverse_involutive. apply Hsub.
  - rewrite reverse_Permutation. unfold items_at, items_except.
    rewrite <- fmap_app.
    rewrite <- (enumerate_snd items 0) at 3.
    apply fmap_Permutation. apply filter_app_complement.
Qed.

End pop_invariants.

Section shuffle_invariants.
Context (random_shuffle : list string → list string).

Lemma at_position_all_from pre l :
  omap (at_position (pre ++ l)) (seqZ (len pre) (len l)) = l.
Proof.
  revert pre. induction l as [|x l IH]; intros pre; [done|].
  unfold len in *. cbn [length]. rewrite Nat2Z.inj_succ.
  rewrite seqZ_cons by lia.
  assert (H : at_position (pre ++ x :: l) (Z.of_nat (length pre)) = Some x).
  { apply at_position_Some. split; [lia|].
    rewrite Nat2Z.id. by apply list_lookup_middle. }
  change (omap ?f (?a :: ?t)) with (match f a with Some y => y :: omap f t | None => omap f t end).
  rewrite H. f_equal.
  replace (Z.succ (Z.of_nat (length pre))) with (Z.of_nat (length (pre ++ [x])))
    by (rewrite length_app; cbn; lia).
  replace (Z.pred (Z.succ (Z.of_nat (length l)))) with (Z.of_nat (length l)) by lia.
  replace (pre ++ x :: l) with ((pre ++ [x]) ++ l) by (by rewrite <- app_assoc).
  apply IH.
Qed.

Lemma omap_length {A B : Type} (f : A → option B) l :
  (length (omap f l) ≤ length l)%nat.
Proof. induction l as [|a l IH]; cbn; [lia|]. destruct (f a); cbn; lia. Qed.

Lemma at_position_all items :
  omap (at_position items) (seqZ 0 (len items)) = items.
Proof. apply (at_position_all_from [] items). Qed.

(** Property X11. [shuffle] with an index never raises; the new stack
    holds items of the old one only, at most one for each index, and when
    the indices are a rearrangement of all positions it is a rearrangement
    of the old stack. *)
Theorem shuffle_rearranges indices items :
  indices ≠ [] →
  ∃ result,
    shuffle_items random_shuffle indices items = Ok result
    ∧ (∀ x, x ∈ result → x ∈ items)
    ∧ (length result ≤ length indices)%nat
    ∧ (indices ≡ₚ seqZ 0 (len items) → result ≡ₚ items).
Proof.
  intros Hne. exists (omap (at_position items) indices).
  split; [|split; [|split] ].
  - unfold shuffle_items. destruct indices; [done|].
    rewrite select_spec, bind_Ok. by rewrite chosen_items.
  - intros x (i & _ & Hi)%list_elem_of_omap.
    apply at_position_Some in Hi as [_ Hi]. by eapply list_elem_of_lookup_2.
  - apply omap_length.
  - intros Hp. rewrite Hp. by rewrite at_position_all.
Qed.

End shuffle_invariants.

(** ** Whole commands *)

Section command_level.
Context (re_search : string → string → result bool).
Context (random_shuffle : list string → list string).

Lemma stack_performs nick rest store subcommand rest' topic index new_item indices :
  split_subcommand rest = (subcommand, rest') →
  command_syntax nick rest' = Ok (topic, index, new_item) →
  parse_index re_search index (get_items store topic) = Ok indices →
  stack re_search random_shuffle nick rest store
  = perform random_shuffle subcommand topic new_item indices store.
Proof. intros Hsplit Hsyntax Hparse. unfold stack. by rewrite Hsplit, Hsyntax, Hparse. Qed.

Lemma list_len_nonneg {A : Type} (l : list A) : 0 ≤ len l.
Proof. unfold len. lia. Qed.

Lemma parse_whole_range items :
  parse_index re_search (Some ":") items = Ok (seqZ 0 (len items)).
Proof.
  unfold parse_index. change (split ":" ",") with [":"].
  rewrite parse_atoms_single by done.
  change ":" with ("" +:+ String ":" "").
  rewrite (parse_atom_range re_search items "" "" 1 (len items)).
  - unfold from_bottom, range. pose proof (list_len_nonneg items).
    destruct (Z.ltb_spec (len items) 0); [lia|]. cbn [Z.ltb Z.compare].
    f_equal. f_equal. lia.
  - intros (pre & post & H). by destruct pre.
  - done.
  - done.
Qed.


Lemma seqZ_len_cons {A : Type} (l : list A) :
  l ≠ [] → ∃ i t, seqZ 0 (len l) = i :: t.
Proof.
  destruct l as [|x l]; [done|]. intros _. unfold len. cbn [length].
  rewrite Nat2Z.inj_succ, seqZ_cons by lia. eauto.
Qed.


Lemma shuffle_items_whole items :
  items ≠ [] →
  shuffle_items random_shuffle (seqZ 0 (len items)) items = Ok items.
Proof.
  intros Hne. unfold shuffle_items.
  destruct (seqZ_len_cons items Hne) as (i & t & Hs).
  rewrite Hs, <- Hs. rewrite select_spec, bind_Ok, chosen_items.
  by rewrite at_position_all.
Qed.

(** Property X12. [show [:]] answers as [show] does, on every store. *)
Theorem show_whole_stack nick store :
  stack re_search random_shuffle nick "show [:]" store
  = stack re_search random_shuffle nick "show" store.
Proof.
  rewrite (stack_performs nick "show [:]" store "show" "[:]" nick (Some ":") ""
             (seqZ 0 (len (get_items store nick))));
    [|done|done|apply parse_whole_range].
  rewrite (stack_performs nick "show" store "show" "" nick None "" []);
    [|done|done|done].
  unfold perform. cbn [String.eqb Ascii.eqb Bool.eqb].
  replace (show_items (seqZ 0 (len (get_items store nick))) "" (get_items store nick))
    with (show_items [] "" (get_items store nick)); [done|].
  unfold show_items. cbn [String.eqb]. unfold range. rewrite Z.sub_0_r.
  by destruct (seqZ 0 (len (get_items store nick))) eqn:E.
Qed.


(** Property X14. On a stack that is not empty, [shuffle [:]] shows the
    numbered items and leaves the store as it was. *)
Theorem shuffle_whole_stack nick store :
  get_items store nick ≠ [] →
  stack re_search random_shuffle nick "shuffle [:]" store
  = (Returned (Some (join " | " (numbered <$> enumerate (get_items store nick) 1))),
     store).
Proof.
  intros Hne.
  rewrite (stack_performs nick "shuffle [:]" store "shuffle" "[:]" nick (Some ":") ""
             (seqZ 0 (len (get_items store nick))));
    [|done|done|apply parse_whole_range].
  unfold perform. cbn [String.eqb Ascii.eqb Bool.eqb].
  assert (Hstore : save_items store nick (get_items store nick) = store).
  { unfold save_items, get_items in *.
    destruct (store !! nick) eqn:E; [by apply insert_id|done]. }
  set (items := get_items store nick) in *.
  rewrite shuffle_items_whole by done.
  rewrite Hstore. do 3 f_equal.
  rewrite or_else_join.
  - destruct items; [done|]. done.
  - apply Forall_fmap, Forall_forall. intros e _. apply numbered_nonempty.
Qed.

Lemma command_syntax_plain nick rest :
  (¬ ∃ pre mid post, bracketed rest pre mid post) →
  command_syntax nick rest = Ok (nick, None, strip rest).
Proof.
  intros Hno. unfold command_syntax.
  destruct (negb (find rest "[" =? -1) && negb (rfind rest "]" =? -1)
            && (find rest "[" <? rfind rest "]")
            && ((find rest " " =? -1) || (find rest "[" <? find rest " "))) eqn:E;
    [|done].
  destruct Hno. apply command_syntax_bracket_found.
  - apply andb_prop in E as [E _]. apply andb_prop in E as [E _].
    apply andb_prop in E as [E _]. apply negb_true_iff in E. lia.
  - apply andb_prop in E as [E _]. apply andb_prop in E as [E _].
    apply andb_prop in E as [_ E]. apply negb_true_iff in E. lia.
  - apply andb_prop in E as [E _]. apply andb_prop in E as [_ E]. lia.
  - apply andb_prop in E as [_ E]. apply orb_prop in E as [E|E]; lia.
Qed.

(** Property X15. The stack is last in, first out: [add item] without an
    index puts the item on top and returns nothing, and the [pop] that
    follows reports that item and saves the stack as it was before. *)
Theorem push_then_pop nick x store :
  strip x = x → x ≠ "" →
  (¬ ∃ pre mid post, bracketed x pre mid post) →
  let pushed := stack re_search random_shuffle nick ("add " +:+ x) store in
  pushed = (Returned None, save_items store nick (x :: get_items store nick))
  ∧ stack re_search random_shuffle nick "pop" pushed.2
    = (Returned (Some ("-: " +:+ x)),
       save_items store nick (get_items store nick)).
Proof.
  intros Hstrip Hne Hplain pushed.
  assert (Hpushed : pushed
    = (Returned None, save_items store nick (x :: get_items store nick))).
  { unfold pushed.
    rewrite (stack_performs nick ("add " +:+ x) store "add" x nick None x []).
    - unfold perform. cbn [String.eqb Ascii.eqb Bool.eqb].
      destruct (String.eqb_spec x "") as [|_]; [done|].
      unfold add_items, insert. cbn [Z.ltb Z.compare].
      pose proof (list_len_nonneg (get_items store nick)) as Hl. unfold len in Hl.
      destruct (Z.ltb_spec (Z.of_nat (length (get_items store nick))) 0); [lia|].
      done.
    - change ("add " +:+ x) with ("add" +:+ String " " x).
      rewrite split_subcommand_two.
      + rewrite Hstrip. change (strip "add") with "add".
        repeat case_decide; done.
      + by apply absent_by_find.
    - rewrite command_syntax_plain by done. by rewrite Hstrip.
    - done. }
  split; [done|]. rewrite Hpushed. cbn [snd].
  rewrite (stack_performs nick "pop" _ "pop" "" nick None "" []); [|done|done|done].
  unfold perform. cbn [String.eqb Ascii.eqb Bool.eqb].
  assert (Hget : get_items (save_items store nick (x :: get_items store nick)) nick
                 = x :: get_items store nick).
  { unfold get_items at 1, save_items. by rewrite lookup_insert_eq. }
  rewrite Hget. rewrite pop_items_spec.
  assert (items_at [0] (x :: get_items store nick) = [x]
          ∧ items_except [0] (x :: get_items store nick) = get_items store nick)
    as [-> ->].
  { unfold items_at, items_except. cbn [enumerate].
    rewrite !filter_cons. cbn [fst].
    rewrite decide_True by apply list_elem_of_singleton, eq_refl.
    rewrite decide_False by (intros H; apply H, list_elem_of_singleton, eq_refl).
    rewrite filter_enumerate_none, filter_enumerate_all.
    - by rewrite enumerate_snd.
    - intros k y Hk. cbn [fst]. rewrite list_elem_of_singleton. lia.
    - intros k y Hk. cbn [fst]. rewrite list_elem_of_singleton. lia. }
  unfold save_items. rewrite insert_insert_eq. done.
Qed.

End command_level.

(** ** Refused atoms *)

Section unreadable_atoms.
Context (re_search : string → string → result bool).

(** Property X16. An atom that starts like no number, quote or regex, has
    no colon and is neither [first] nor [last] is refused: [parse_index]
    raises [ValueError] from [int] on line 254. *)
Theorem word_atom_rejected items c s :
  strip (String c s) = String c s →
  ¬ literal_head c → ¬ opens_match c →
  ¬ occurs_in ":" (String c s) → ¬ occurs_in "," (String c s) →
  String c s ≠ "first" → String c s ≠ "last" →
  parse_index re_search (Some (String c s)) items = Raise ValueError.
Proof.
  intros Hstrip Hlit Hopen Hcolon Hcomma Hfirst Hlast.
  assert (Hc : isspace c = false).
  { apply strip_fixed in Hstrip as [Hl _]. by eapply lstrip_fixed_head. }
  unfold parse_index.
  rewrite split_absent by (by apply find_absent).
  rewrite parse_atoms_single by done.
  unfold parse_atom.
  rewrite !startswith_cons_ne
    by (intros ->; apply Hopen; unfold opens_match; auto).
  cbn [andb orb].
  destruct (contains (String c s) ":") eqn:E.
  { by apply contains_spec in E. }
  destruct (String.eqb_spec (String c s) "first") as [|_]; [done|].
  destruct (String.eqb_spec (String c s) "last") as [|_]; [done|].
  destruct (Int.int (String c s)) as [z|e] eqn:Hint.
  - destruct Hlit. by eapply int_head.
  - by apply int_raises in Hint as ->.
Qed.

End unreadable_atoms.

(** ** [split_num] *)

Section split_num_facts.
Import QuotesPlus.

Lemma rpartition_absent s c :
  ¬ occurs_in (String c "") s → rpartition s c = ("", "", s).
Proof. intros H%rfind_absent. unfold rpartition. by rewrite H. Qed.

Lemma rpartition_last s c p :
  ¬ occurs_in (String c "") p →
  rpartition (s +:+ String c p) c = (s, String c "", p).
Proof.
  intros H. unfold rpartition. rewrite rfind_last by done.
  pose proof (len_nonneg s).
  destruct (Z.eqb_spec (Str.len s) (-1)); [lia|].
  rewrite slice_to_app.
  replace (s +:+ String c p) with ((s +:+ String c "") +:+ p)
    by (by rewrite sapp_assoc, sapp_cons, sapp_nil_l).
  replace (Str.len s + 1) with (Str.len (s +:+ String c ""))
    by (rewrite len_app, len_cons; unfold Str.len; cbn; lia).
  by rewrite slice_from_app.
Qed.

Lemma rpartition_cases s c :
  rpartition s c = ("", "", s) ∧ ¬ occurs_in (String c "") s
  ∨ ∃ q p, s = q +:+ String c p ∧ ¬ occurs_in (String c "") p
           ∧ rpartition s c = (q, String c "", p).
Proof.
  destruct (Z.eq_dec (rfind s c) (-1)) as [E|E].
  - left. apply rfind_absent in E. split; [by apply rpartition_absent|done].
  - right. destruct (rfind_split s c E) as (q & p & -> & Hp & _).
    exists q, p. split; [done|]. split; [done|]. by apply rpartition_last.
Qed.

Lemma all_digits_chars s c :
  all_digits s = true → occurs_in (String c "") s → is_Some (Int.digit c).
Proof.
  induction s as [|a s IH]; intros H Hc.
  { by apply occurs_nil in Hc. }
  cbn [all_digits] in H. destruct (Int.digit a) eqn:Ha; [|done].
  apply occurs_cons in Hc as [->|Hc]; [by eexists|by apply IH].
Qed.

Lemma digit_range c d : Int.digit c = Some d → 0 ≤ d ≤ 9.
Proof.
  unfold Int.digit. case_match eqn:E; [|done]. intros [= <-].
  apply andb_prop in E as [?%Nat.leb_le ?%Nat.leb_le]. lia.
Qed.

Lemma digit_not_blank c d : Int.digit c = Some d → Int.blank c = false.
Proof.
  unfold Int.digit, Int.blank. case_match eqn:E; [|done]. intros _.
  apply andb_prop in E as [?%Nat.leb_le ?%Nat.leb_le].
  apply orb_false_iff. split.
  - apply andb_false_iff. right. apply Nat.leb_gt. lia.
  - apply Nat.eqb_neq. lia.
Qed.

Lemma digits_all s acc b :
  all_digits s = true → 0 ≤ acc → (s = "" → b = true) →
  ∃ n, Int.digits s acc b = Some n ∧ 0 ≤ n.
Proof.
  revert acc b. induction s as [|a s IH]; intros acc b H Hacc Hb.
  - cbn. rewrite Hb by done. eauto.
  - cbn [all_digits Int.digits] in *. destruct (Int.digit a) as [d|] eqn:Ha; [|done].
    apply digit_range in Ha. apply IH; [done|lia|done].
Qed.

Lemma drop_trailing_blanks_digits s :
  all_digits s = true → Int.drop_trailing_blanks s = s.
Proof.
  induction s as [|a s IH]; [done|]. cbn [all_digits Int.drop_trailing_blanks].
  destruct (Int.digit a) as [d|] eqn:Ha; [|done]. intros H.
  rewrite IH by done. destruct s; [|done]. by rewrite (digit_not_blank a d).
Qed.

Lemma count_digits_all s :
  all_digits s = true → Int.count_digits s = Str.len s.
Proof.
  induction s as [|a s IH]; [done|]. cbn [all_digits Int.count_digits].
  destruct (Int.digit a); [|done]. intros ->%IH. rewrite len_cons. lia.
Qed.

(** [int] on a run of digits: the value, unless the run is longer than
    [int] takes. *)
Lemma int_isdigit s :
  isdigit s = true →
  ∃ n, 0 ≤ n
       ∧ Int.int s = if decide (Str.len s ≤ Int.max_str_digits) then Ok n
                     else Raise ValueError.
Proof.
  unfold isdigit. intros [Hne Hall]%andb_prop.
  destruct s as [|a s]; [done|]. clear Hne.
  pose proof Hall as Hall'. cbn [all_digits] in Hall'.
  destruct (Int.digit a) as [d|] eqn:Ha; [|done].
  unfold Int.int. cbn [Int.skip_blanks]. rewrite (digit_not_blank a d) by done.
  rewrite drop_trailing_blanks_digits by done.
  destruct (digits_all (String a s) 0 false Hall) as (n & Hn & Hpos); [lia|done|].
  exists n. split; [done|]. cbv zeta.
  assert (Int.signed_digits (String a s) = Int.digits (String a s) 0 false) as ->.
  { destruct (decide (a = "+"%char)) as [->|H1]; [done|].
    destruct (decide (a = "-"%char)) as [->|H2]; [done|].
    clear -H1 H2. by destruct a as [[] [] [] [] [] [] [] []]. }
  rewrite Hn, count_digits_all by done.
  destruct (Z.ltb_spec Int.max_str_digits (Str.len (String a s)));
    case_decide; done || lia.
Qed.

Lemma isdigit_no_blank num : isdigit num = true → ¬ occurs_in " " num.
Proof.
  unfold isdigit. intros [_ Hall]%andb_prop Hc.
  by destruct (all_digits_chars num " " Hall Hc).
Qed.

Lemma split_num_digits prefix num :
  prefix ≠ "" → isdigit num = true →
  split_num (prefix +:+ String " " num) = n ← Int.int num; Ok (prefix, n).
Proof.
  intros Hp Hd. unfold split_num.
  rewrite rpartition_last by (by apply isdigit_no_blank).
  destruct (String.eqb_spec prefix "") as [|_]; [done|].
  by rewrite Hd.
Qed.

Lemma split_num_number_eq prefix num n :
  prefix ≠ "" → isdigit num = true → Int.int num = Ok n →
  0 ≤ n ∧ split_num (prefix +:+ String " " num) = Ok (prefix, n).
Proof.
  intros Hp Hd Hint. destruct (int_isdigit num Hd) as (n' & Hpos & Hn).
  rewrite Hint in Hn. rewrite split_num_digits, Hint by done.
  case_decide; [|done]. injection Hn as ->. done.
Qed.

Lemma split_num_cases lookup :
  (∃ prefix n,
     split_num lookup = Ok (prefix, n) ∧ 0 ≤ n
     ∧ (prefix = lookup ∧ n = 0
        ∨ ∃ num, lookup = prefix +:+ String " " num ∧ prefix ≠ ""
                 ∧ isdigit num = true ∧ Int.int num = Ok n))
  ∨ (split_num lookup = Raise ValueError
     ∧ ∃ prefix num, lookup = prefix +:+ String " " num ∧ prefix ≠ ""
                     ∧ isdigit num = true
                     ∧ Int.max_str_digits < Str.len num).
Proof.
  assert (∃ prefix n,
            Ok (lookup, 0) = Ok (prefix, n) ∧ 0 ≤ n
            ∧ (prefix = lookup ∧ n = 0
               ∨ ∃ num, lookup = prefix +:+ String " " num ∧ prefix ≠ ""
                        ∧ isdigit num = true ∧ Int.int num = Ok n)) as Hsame.
  { exists lookup, 0. split; [done|]. split; [done|]. by left. }
  destruct (rpartition_cases lookup " ") as [[Hpart _]|(q & p & Hl & Hp & Hpart)].
  { left. unfold split_num. by rewrite Hpart. }
  destruct (String.eqb_spec q "") as [->|Hq].
  { left. unfold split_num. by rewrite Hpart. }
  destruct (isdigit p) eqn:Hd.
  - subst lookup. rewrite split_num_digits by done.
    destruct (int_isdigit p Hd) as (n & Hpos & Hn). rewrite Hn.
    case_decide as Hlen.
    + left. rewrite bind_Ok. exists q, n. split; [done|]. split; [done|].
      right. by exists p.
    + right. split; [done|]. exists q, p. split_and!; [done..|lia].
  - left. unfold split_num. rewrite Hpart.
    destruct (String.eqb_spec q "") as [|_]; [done|]. by rewrite Hd.
Qed.

(** Property X19. [split_num] takes a trailing run of digits after the
    last blank as the number, provided something precedes the blank and
    the run is not longer than [int] takes; a longer run makes it raise
    [ValueError]. *)
Theorem split_num_number prefix num :
  prefix ≠ "" → isdigit num = true →
  if decide (Str.len num ≤ Int.max_str_digits)
  then ∃ n, Int.int num = Ok n ∧ 0 ≤ n
            ∧ split_num (prefix +:+ String " " num) = Ok (prefix, n)
  else split_num (prefix +:+ String " " num) = Raise ValueError.
Proof.
  intros Hp Hd. rewrite split_num_digits by done.
  destruct (int_isdigit num Hd) as (n & Hpos & Hn). rewrite Hn.
  case_decide; [|done]. by exists n.
Qed.


End split_num_facts.

(** ** Lookup and deletion of quotes *)

Section quotes_store.
Import QuotesPlus.
Context (randrange : Z → Z).

Lemma find_matches_elem db lib thing row :
  row ∈ find_matches db lib thing → row ∈ db ∧ library row = lib.
Proof.
  unfold find_matches, find_sorted. intros [_ H]%list_elem_of_filter.
  rewrite merge_sort_Permutation in H. by apply list_elem_of_filter in H as [? ?].
Qed.

Lemma delete_one_length db row :
  row ∈ db → length db = S (length (delete_one db row)).
Proof.
  induction db as [|d db IH]; [by intros ?%elem_of_nil|].
  cbn [delete_one]. case_decide as E; [done|].
  intros [?|H]%elem_of_cons; [congruence|]. cbn [length]. by rewrite <- IH.
Qed.

Lemma delete_one_sublist db row : delete_one db row `sublist_of` db.
Proof.
  induction db as [|d db IH]; [done|]. cbn [delete_one].
  case_decide; [by apply sublist_cons|by apply sublist_skip].
Qed.

Lemma getitem_from_top {A : Type} (l : list A) (i : Z) :
  0 ≤ i →
  getitem l i = match l !! Z.to_nat i with Some x => Ok x | None => Raise IndexError end.
Proof.
  intros Hi. unfold getitem. cbv zeta.
  assert (Hlt : (i <? 0) = false) by lia.
  rewrite Hlt. cbv beta iota. rewrite Hlt. cbn [orb].
  destruct (Z.leb_spec (Z.of_nat (length l)) i) as [H'|H']; [|done].
  rewrite (lookup_ge_None_2 l (Z.to_nat i)); [done|lia].
Qed.

Lemma digit_not_space c d : Int.digit c = Some d → isspace c = false.
Proof.
  unfold Int.digit, isspace. generalize (nat_of_ascii c). intros n.
  destruct ((48 <=? n)%nat && (n <=? 57)%nat) eqn:E; [|done]. intros _.
  apply andb_prop in E as [?%Nat.leb_le ?%Nat.leb_le].
  apply orb_false_iff. split; apply andb_false_iff.
  - right. apply Nat.leb_gt. lia.
  - right. apply Nat.leb_gt. lia.
Qed.

Lemma rstrip_digits num : all_digits num = true → rstrip num = num.
Proof.
  induction num as [|a num IH]; [done|].
  cbn [all_digits]. destruct (Int.digit a) as [d|] eqn:Ha; [|done]. intros Hall.
  cbn [rstrip]. rewrite IH by done. destruct num; [|done].
  by rewrite (digit_not_space a d).
Qed.

Lemma strip_query thing num :
  strip thing = thing → thing ≠ "" → isdigit num = true →
  strip (thing +:+ String " " num) = thing +:+ String " " num.
Proof.
  intros [Hl Hr]%strip_fixed Hne Hd. unfold strip.
  assert (lstrip (thing +:+ String " " num) = thing +:+ String " " num) as ->.
  { destruct thing as [|c thing]; [done|].
    rewrite sapp_cons. apply lstrip_cons. by eapply lstrip_fixed_head. }
  replace (thing +:+ String " " num) with ((thing +:+ " ") +:+ num)
    by (by rewrite sapp_assoc, sapp_cons, sapp_nil_l).
  unfold isdigit in Hd. apply andb_prop in Hd as [Hnum Hall].
  apply rstrip_app_fixed; [by apply rstrip_digits|by destruct num].
Qed.

(** Property X21. What [MongoDBQuotes.delete] does. When [split_num]
    raises, on a number too long for [int], so does [delete], and nothing
    is looked up. Otherwise it removes one document of the library and
    nothing else, or raises: without a trailing number the text must
    match exactly one quote, else [ValueError]; with the number [k] it
    removes the [k]-th match, however many there are, and raises
    [IndexError] when there are fewer than [k]. *)
Theorem delete_removes db lib lookup :
  match split_num lookup with
  | Raise e => e = ValueError ∧ delete db lib lookup = Raise ValueError
  | Ok (thing, num) =>
      let found := find_matches db lib thing in
      match delete db lib lookup with
      | Ok db' =>
          ∃ row, row ∈ db ∧ library row = lib
                 ∧ (if decide (num = 0) then found = [row]
                    else found !! Z.to_nat (num - 1) = Some row)
                 ∧ db' = delete_one db row
                 ∧ db' `sublist_of` db ∧ length db = S (length db')
      | Raise e =>
          if decide (num = 0) then e = ValueError ∧ length found ≠ 1%nat
          else e = IndexError ∧ len found < num
      end
  end.
Proof.
  destruct (split_num_cases lookup)
    as [(thing & num & Hsplit & Hnum & _)|[Hsplit _] ].
  2:{ unfold delete. by rewrite Hsplit. }
  rewrite Hsplit. intros found.
  unfold delete. rewrite Hsplit, bind_Ok. fold found.
  assert (Hrow : ∀ row, row ∈ found →
     row ∈ db ∧ library row = lib).
  { intros row. apply find_matches_elem. }
  destruct (Z.eqb_spec num 0) as [->|Hne].
  - destruct found as [|row [|? ?]] eqn:E.
    + cbn. by rewrite decide_True.
    + rewrite bind_Ok. exists row. rewrite decide_True by done.
      destruct (Hrow row) as [Hin Hlib]; [apply list_elem_of_here|].
      split_and!; [done|done|done|done|apply delete_one_sublist|by apply delete_one_length].
    + cbn. by rewrite decide_True.
  - rewrite getitem_from_top by lia.
    destruct (found !! Z.to_nat (num - 1)) as [row|] eqn:E.
    + rewrite bind_Ok. exists row. rewrite decide_False by done.
      destruct (Hrow row) as [Hin Hlib]; [by eapply list_elem_of_lookup_2|].
      split_and!; [done|done|done|done|apply delete_one_sublist|by apply delete_one_length].
    + cbn. rewrite decide_False by done.
      split; [done|]. apply lookup_ge_None in E. unfold len. lia.
Qed.

(** Property X22. [lookup] with a trailing number [n > 0] returns the
    [n]-th matching quote with [n] and the number of matches; it raises
    [IndexError] when there are matches but fewer than [n], and returns
    the empty quote with [(1, 0)] when nothing matches. *)
Theorem lookup_numbered db lib thing num n :
  strip thing = thing → thing ≠ "" →
  isdigit num = true → Int.int num = Ok n → n ≠ 0 →
  let results := text <$> find_matches db lib thing in
  lookup randrange db lib (thing +:+ String " " num)
  = match results with
    | [] => Ok ("", 1, 0)
    | _ =>
        match results !! Z.to_nat (n - 1) with
        | Some quote => Ok (quote, n, len results)
        | None => Raise IndexError
        end
    end.
Proof.
  intros Hstrip Hthing Hd Hint Hn results. unfold lookup.
  rewrite strip_query by done.
  destruct (split_num_number_eq thing num n Hthing Hd Hint) as [Hpos ->].
  rewrite bind_Ok. unfold lookup_with_num. fold results.
  destruct results as [|q results'] eqn:E; [done|]. rewrite <- E.
  assert ((0 <? len results) = true) as ->.
  { rewrite E. unfold len. cbn [length]. apply Z.ltb_lt. lia. }
  destruct (Z.eqb_spec n 0); [done|].
  rewrite getitem_from_top by lia.
  destruct (results !! Z.to_nat (n - 1)); [|done].
  rewrite bind_Ok. do 3 f_equal. lia.
Qed.

End quotes_store.

(** ** The further properties at concrete inputs *)

Lemma plain_not_bracketed rest :
  find rest "[" = -1 → ¬ ∃ pre mid post, bracketed rest pre mid post.
Proof.
  intros Hfind (pre & mid & post & -> & _). apply find_absent in Hfind.
  apply Hfind. by exists pre, (mid +:+ String "]" post).
Qed.

Lemma blank_or_comma_example : blank_or_comma " , ,  ".
Proof.
  intros c H.
  repeat (apply occurs_cons in H as [->|H]; [by auto|]).
  by apply occurs_nil in H.
Qed.

Lemma blank_index_expression_witness :
  blank_or_comma " , ,  "
  ∧ parse_index re_plain (Some " , ,  ") ["a"; "b"; "c"] = Ok [].
Proof.
  split; [exact blank_or_comma_example|].
  exact (blank_index_expression re_plain ["a"; "b"; "c"] " , ,  "
           blank_or_comma_example).
Defined.

Lemma integer_atom_position_witness :
  strip "-1" = "-1" ∧ Int.int "-1" = Ok (-1)
  ∧ parse_index re_plain (Some "-1") ["a"; "b"; "c"] = Ok [2]
  ∧ parse_index re_plain (Some "-1:-1") ["a"; "b"; "c"]
    = parse_index re_plain (Some "-1") ["a"; "b"; "c"].
Proof.
  split_and!; [reflexivity|reflexivity|..];
    apply (integer_atom_position re_plain ["a"; "b"; "c"] "-1" (-1)
             eq_refl eq_refl).
Defined.

Lemma regex_atom_positions_witness :
  (∀ item, item ∈ ["ab"; "b"; "ca"] → re_plain "a" item = Ok (contains item "a"))
  ∧ ∃ l, parse_atom re_plain ["ab"; "b"; "ca"] "/a/" = Ok l
       ∧ (¬ occurs_in "," "a" →
          parse_index re_plain (Some "/a/") ["ab"; "b"; "ca"] = Ok l)
       ∧ StronglySorted Z.lt l
       ∧ ∀ i, i ∈ l ↔
           0 ≤ i ∧ ∃ item, ["ab"; "b"; "ca"] !! Z.to_nat i = Some item
                           ∧ contains item "a" = true.
Proof.
  assert (∀ item, item ∈ ["ab"; "b"; "ca"] →
          re_plain "a" item = Ok (contains item "a")) as H by done.
  split; [exact H|].
  exact (regex_atom_positions re_plain ["ab"; "b"; "ca"] "a"
           (fun item => contains item "a") H).
Defined.

Lemma word_atom_rejected_witness :
  strip "top" = "top"
  ∧ ¬ literal_head "t" ∧ ¬ opens_match "t"
  ∧ ¬ occurs_in ":" "top" ∧ ¬ occurs_in "," "top"
  ∧ "top" ≠ "first" ∧ "top" ≠ "last"
  ∧ parse_index re_plain (Some "top") ["a"; "b"; "c"] = Raise ValueError.
Proof.
  assert (¬ literal_head "t") as H1.
  { intros [H|[H|[d H]]]; discriminate H. }
  assert (¬ opens_match "t") as H2.
  { intros [H|[H|H]]; discriminate H. }
  assert (¬ occurs_in ":" "top") as H3 by (by apply absent_by_find).
  assert (¬ occurs_in "," "top") as H4 by (by apply absent_by_find).
  assert ("top" ≠ "first") as H5 by discriminate.
  assert ("top" ≠ "last") as H6 by discriminate.
  split_and!; [reflexivity|exact H1|exact H2|exact H3|exact H4|exact H5|exact H6|].
  exact (word_atom_rejected re_plain ["a"; "b"; "c"] "t" "op"
           eq_refl H1 H2 H3 H4 H5 H6).
Defined.

Lemma split_subcommand_spec_witness :
  ¬ occurs_in " " "add"
  ∧ split_subcommand "add" = ("add", "")
  ∧ split_subcommand "add [2]  buy milk " = ("add", "[2]  buy milk").
Proof.
  assert (¬ occurs_in " " "add") as H by (by apply absent_by_find).
  split; [exact H|].
  exact (split_subcommand_spec "add" "[2]  buy milk " H).
Defined.

Lemma stack_escapes_witness :
  stack re_plain keep_order "n" "show [/(/]" abc = (Uncaught ReError, abc)
  ∧ stack re_plain keep_order "n" "add [-99999999999999999999] x" abc
    = (Uncaught OverflowError, abc)
  ∧ (abc = abc ∧ ReError ≠ ValueError
     ∧ ((∃ pattern text, re_plain pattern text = Raise ReError)
        ∨ ReError = OverflowError
          ∧ (split_subcommand "show [/(/]").1 = "add"))
  ∧ (abc = abc ∧ OverflowError ≠ ValueError
     ∧ ((∃ pattern text, re_plain pattern text = Raise OverflowError)
        ∨ OverflowError = OverflowError
          ∧ (split_subcommand "add [-99999999999999999999] x").1 = "add")).
Proof.
  assert (stack re_plain keep_order "n" "show [/(/]" abc = (Uncaught ReError, abc))
    as H1 by reflexivity.
  assert (stack re_plain keep_order "n" "add [-99999999999999999999] x" abc
          = (Uncaught OverflowError, abc)) as H2 by reflexivity.
  split; [exact H1|]. split; [exact H2|]. split.
  - exact (stack_escapes re_plain keep_order "n" "show [/(/]" abc ReError abc H1).
  - exact (stack_escapes re_plain keep_order "n"
             "add [-99999999999999999999] x" abc OverflowError abc H2).
Defined.

Lemma stack_frame_witness :
  command_syntax "n" (split_subcommand "add m[] x").2 = Ok ("m", Some "", "x")
  ∧ (∀ other, other ≠ "m" →
       get_items (stack re_plain keep_order "n" "add m[] x" abc).2 other
       = get_items abc other)
  ∧ ((stack re_plain keep_order "n" "add m[] x" abc).2 = abc
     ∨ ∃ items, (stack re_plain keep_order "n" "add m[] x" abc).2
                = save_items abc "m" items)
  ∧ ((split_subcommand "add m[] x").1 ≠ "add" →
     (split_subcommand "add m[] x").1 ≠ "pop" →
     (split_subcommand "add m[] x").1 ≠ "shuffle" →
     (stack re_plain keep_order "n" "add m[] x" abc).2 = abc).
Proof.
  assert (command_syntax "n" (split_subcommand "add m[] x").2
          = Ok ("m", Some "", "x")) as H by reflexivity.
  split; [exact H|].
  exact (stack_frame re_plain keep_order "n" "add m[] x" abc "m" (Some "") "x" H).
Defined.

Lemma shuffle_rearranges_witness :
  [2; 0; 1] ≠ []
  ∧ ∃ result,
      shuffle_items keep_order [2; 0; 1] ["a"; "b"; "c"] = Ok result
      ∧ (∀ x, x ∈ result → x ∈ ["a"; "b"; "c"])
      ∧ (length result ≤ length [2; 0; 1])%nat
      ∧ ([2; 0; 1] ≡ₚ seqZ 0 (len ["a"; "b"; "c"]) → result ≡ₚ ["a"; "b"; "c"]).
Proof.
  assert ([2; 0; 1] ≠ @nil Z) as H by done.
  split; [exact H|].
  exact (shuffle_rearranges keep_order [2; 0; 1] ["a"; "b"; "c"] H).
Defined.

Lemma shuffle_whole_stack_witness :
  get_items abc "n" ≠ []
  ∧ stack re_plain keep_order "n" "shuffle [:]" abc
    = (Returned (Some "1: a | 2: b | 3: c"), abc).
Proof.
  assert (get_items abc "n" ≠ []) as H by discriminate.
  split; [exact H|].
  exact (shuffle_whole_stack re_plain keep_order "n" abc H).
Defined.

Lemma push_then_pop_witness :
  strip "buy milk" = "buy milk" ∧ "buy milk" ≠ ""
  ∧ (¬ ∃ pre mid post, bracketed "buy milk" pre mid post)
  ∧ stack re_plain keep_order "n" "add buy milk" abc
    = (Returned None, save_items abc "n" ["buy milk"; "a"; "b"; "c"])
  ∧ stack re_plain keep_order "n" "pop"
      (stack re_plain keep_order "n" "add buy milk" abc).2
    = (Returned (Some "-: buy milk"), save_items abc "n" ["a"; "b"; "c"]).
Proof.
  assert ("buy milk" ≠ "") as H1 by discriminate.
  assert (¬ ∃ pre mid post, bracketed "buy milk" pre mid post) as H2
    by (by apply plain_not_bracketed).
  split_and!; [reflexivity|exact H1|exact H2|..];
    apply (push_then_pop re_plain keep_order "n" "buy milk" abc eq_refl H1 H2).
Defined.

Lemma split_num_number_witness :
  "time warp" ≠ "" ∧ QuotesPlus.isdigit "12" = true
  ∧ ∃ n, Int.int "12" = Ok n ∧ 0 ≤ n
         ∧ QuotesPlus.split_num "time warp 12" = Ok ("time warp", n).
Proof.
  assert ("time warp" ≠ "") as H by discriminate.
  split_and!; [exact H|reflexivity|].
  exact (split_num_number "time warp" "12" H eq_refl).
Defined.

Lemma lookup_numbered_witness :
  strip "time warp" = "time warp" ∧ "time warp" ≠ ""
  ∧ QuotesPlus.isdigit "1" = true ∧ Int.int "1" = Ok 1 ∧ 1 ≠ 0
  ∧ QuotesPlus.lookup first_draw test_quotes "test" "time warp 1"
    = Ok ("let's do the Time Warp again", 1, 1)
  ∧ QuotesPlus.lookup first_draw test_quotes "test" "a 4"
    = Raise IndexError.
Proof.
  assert ("time warp" ≠ "") as H1 by discriminate.
  assert ("a" ≠ "") as H1' by discriminate.
  assert (1 ≠ 0) as H2 by lia.
  assert (4 ≠ 0) as H3 by lia.
  split_and!; [reflexivity|exact H1|reflexivity|reflexivity|exact H2|..].
  - exact (lookup_numbered first_draw test_quotes "test" "time warp" "1" 1
             eq_refl H1 eq_refl eq_refl H2).
  - exact (lookup_numbered first_draw test_quotes "test" "a" "4" 4
             eq_refl H1' eq_refl eq_refl H3).
Defined.
